(** * PMapper: the Lambda edge checker

    A shallow embedding of
    [principalmapper/graphing/lambda_edges.py] (class [LambdaEdgeChecker],
    method [return_edges]) and the properties of it that the specification
    states.

    The method walks every ordered pair of nodes, asks the policy simulation
    whether the source can reach the destination through AWS Lambda, writes a
    line per finding on the [output] stream and returns the list of edges it
    appended to [result].  The embedding keeps that shape: a small state and
    exception monad over a [World] that holds the Node objects, the provider's
    function inventory, the [output] stream and the standard output. *)

From Stdlib Require Import List String Ascii Bool Arith Lia.
Import ListNotations.

Open Scope string_scope.
Open Scope list_scope.

(* ================================================================== *)
(** ** Data *)

(** The identity of a Python object.  The nodes handed to [return_edges] are
    references: [node_source == node_destination] compares them, and an
    [Edge] keeps the two references it was built from. *)
Definition loc := nat.

(** Modelled from the spec: the class [Node] lives in
    [principalmapper.common.nodes], outside this source tree.  The fields are
    the ones the method reads ([arn], [is_admin], [trust_policy]) and the
    identity policies the local authorization check evaluates.  [Doc] is the
    type of a policy document, opaque to the checker. *)
Record Node (Doc : Type) : Type := mkNode {
  arn : string;
  is_admin : bool;
  trust_policy : option Doc;
  attached_policies : list Doc
}.

Arguments mkNode {Doc} _ _ _ _.
Arguments arn {Doc} _.
Arguments is_admin {Doc} _.
Arguments trust_policy {Doc} _.
Arguments attached_policies {Doc} _.

(** Modelled from the spec: the class [Edge] lives in
    [principalmapper.common.edges]; the constructor call
    [Edge(node_source, node_destination, reason)] fixes its three fields. *)
Record Edge : Type := mkEdge {
  source : loc;
  destination : loc;
  reason : string
}.

(** One entry of [page['Functions']]: the two keys the method reads. *)
Record Function : Type := mkFunction {
  FunctionArn : string;
  Role : string
}.

(** [(func, can_change_code, can_change_config)], an entry of [func_data]. *)
Definition FuncData : Type := (Function * bool * bool)%type.

(** Modelled from the spec: the enumeration [ResourcePolicyEvalResult] is
    imported from [principalmapper.querying.local_policy_simulation]; the
    specification gives it three outcomes. *)
Inductive ResourcePolicyEvalResult : Type :=
  | NO_MATCH
  | EXPLICIT_DENY
  | SERVICE_MATCH.

Definition verdict_eqb (a b : ResourcePolicyEvalResult) : bool :=
  match a, b with
  | NO_MATCH, NO_MATCH => true
  | EXPLICIT_DENY, EXPLICIT_DENY => true
  | SERVICE_MATCH, SERVICE_MATCH => true
  | _, _ => false
  end.

(** [self.session]: what the method asks of a botocore session is the list
    of regions that support Lambda; a Lambda client is then known by its
    region. *)
Record Session : Type := mkSession {
  get_available_regions : string -> list string
}.

(** A Python exception, by its message. *)
Definition Exn : Type := string.

(** The outcome of a call that may raise. *)
Inductive Result (A : Type) : Type :=
  | Ok (a : A)
  | Raised (e : Exn).

Arguments Ok {A} _.
Arguments Raised {A} _.

(** A request context, [{}] or [{'iam:PassedToService': ...}]. *)
Definition RequestContext : Type := list (string * string).

(** The names the module imports (source lines 7 to 12) and calls.  None of
    them is defined in this source tree, so the checker is verified against
    any implementation of them.  All four read their arguments and change
    nothing; the two policy checks may raise, the two helpers are plain
    functions of their arguments. *)
Class Imports : Type := {
  PolicyDocument : Type;
  (** [resource_policy_authorization(service, account, policy, action,
      resource, context, debug)] *)
  resource_policy_authorization :
    string -> string -> option PolicyDocument -> string -> string ->
    RequestContext -> bool -> Result ResourcePolicyEvalResult;
  (** [query_interface.local_check_authorization(node, action, resource,
      context, debug)] *)
  local_check_authorization :
    Node PolicyDocument -> string -> string -> RequestContext -> bool -> Result bool;
  (** [arns.get_account_id(arn)] *)
  get_account_id : string -> string;
  (** [Edge.describe_edge()], from the two nodes of the edge and its reason *)
  describe_edge : Node PolicyDocument -> Node PolicyDocument -> string -> string
}.

(** [needle in hay] on Python strings. *)
Fixpoint contains (needle hay : string) : bool :=
  String.prefix needle hay ||
  match hay with
  | EmptyString => false
  | String _ rest => contains needle rest
  end.

(** The line feed that ends every line written on [output]. *)
Definition LF : string := String (ascii_of_nat 10) EmptyString.

(** The three reason strings (source lines 84, 106 and 117). *)
Definition REASON_NEW_FUNCTION : string :=
  "can use Lambda to create a new function with arbitrary code, then pass and access".

Definition reason_edit_existing (function_arn : string) : string :=
  "can use Lambda to edit an existing function (" ++ function_arn ++ ") to access".

Definition reason_edit_then_pass (function_arn : string) : string :=
  "can use Lambda to edit an existing function's code (" ++ function_arn
  ++ "), then pass and access".

Section Model.

Context {imports : Imports}.

(** What a call of [return_edges] can read or change: the Node objects, the
    functions deployed at the provider (per region, in the pages the
    paginator returns), the text written on [output] so far and the lines
    printed on the standard output so far. *)
Record World : Type := mkWorld {
  principals : loc -> Node PolicyDocument;
  inventory : string -> list (list Function);
  sink : list string;
  stdout : list string
}.

(** ** The monad: state and exceptions *)

Definition M (A : Type) : Type := World -> World * Result A.

Definition ret {A : Type} (a : A) : M A := fun w => (w, Ok a).

Definition bind {A B : Type} (m : M A) (k : A -> M B) : M B :=
  fun w =>
    match m w with
    | (w', Ok a) => k a w'
    | (w', Raised e) => (w', Raised e)
    end.

Notation "x <- m ;; k" := (bind m (fun x => k))
  (at level 61, m at next level, right associativity).
Notation "' pat <- m ;; k" := (bind m (fun x => match x with pat => k end))
  (at level 61, pat pattern, m at next level, right associativity).
Notation "m ;;; k" := (bind m (fun _ => k))
  (at level 61, right associativity).

(** A call into the policy simulation: its answer, or the exception it
    raises. *)
Definition call {A : Type} (r : Result A) : M A := fun w => (w, r).

(** [node.attribute] *)
Definition attr {A : Type} (field : Node PolicyDocument -> A) (node : loc) : M A :=
  fun w => (w, Ok (field (principals w node))).

(** The node object itself, as an argument of a call. *)
Definition deref (node : loc) : M (Node PolicyDocument) :=
  fun w => (w, Ok (principals w node)).

(** [output.write(text)] *)
Definition output_write (text : string) : M unit :=
  fun w =>
    ({| principals := principals w; inventory := inventory w;
        sink := sink w ++ [text]; stdout := stdout w |}, Ok tt).

(** [print(line)] *)
Definition print (line : string) : M unit :=
  fun w =>
    ({| principals := principals w; inventory := inventory w;
        sink := sink w; stdout := stdout w ++ [line] |}, Ok tt).

(** [lambda_client.get_paginator('list_functions').paginate(...)] for the
    client of [region]: the pages of that region. *)
Definition paginate (region : string) : M (list (list Function)) :=
  fun w => (w, Ok (inventory w region)).

(** [for x in xs: acc = body(x, acc)] *)
Fixpoint for_each {A S : Type} (xs : list A) (body : A -> S -> M S) (acc : S) : M S :=
  match xs with
  | [] => ret acc
  | x :: rest => acc' <- body x acc ;; for_each rest body acc'
  end.

Inductive LoopCtl : Type := Next | Break.

(** [for x in xs: body(x)], where the body may [break]. *)
Fixpoint for_break {A : Type} (xs : list A) (body : A -> M LoopCtl) : M unit :=
  match xs with
  | [] => ret tt
  | x :: rest =>
      c <- body x ;;
      match c with
      | Break => ret tt
      | Next => for_break rest body
      end
  end.

(** ** [return_edges] *)

(** [output.write('Found new edge: {}\n'.format(new_edge.describe_edge()))] *)
Definition found_new_edge (new_edge : Edge) : M unit :=
  src <- deref (source new_edge) ;;
  dst <- deref (destination new_edge) ;;
  output_write ("Found new edge: " ++ describe_edge src dst (reason new_edge) ++ LF).

(** Source lines 26 to 39: the Lambda clients, one per region, and the
    functions they list. *)
Definition gather_functions (session : option Session) : M (list Function) :=
  lambda_clients <-
    match session with
    | Some s =>
        print "Searching through Lambda-supported regions for existing functions." ;;;
        ret (get_available_regions s "lambda")
    | None => ret []
    end ;;
  for_each lambda_clients
    (fun lambda_client function_list =>
       pages <- paginate lambda_client ;;
       ret (function_list ++ List.concat pages))
    [].

(** Source lines 89 to 97. *)
Definition function_checks (debug : bool) (function_list : list Function)
    (node_source : loc) : M (list FuncData) :=
  for_each function_list
    (fun func func_data =>
       src <- deref node_source ;;
       can_change_code <-
         call (local_check_authorization src "lambda:UpdateFunctionCode"
                 (FunctionArn func) [] debug) ;;
       can_change_config <-
         call (local_check_authorization src "lambda:UpdateFunctionConfiguration"
                 (FunctionArn func) [] debug) ;;
       ret (func_data ++ [(func, can_change_code, can_change_config)]))
    [].

(** Source lines 100 to 109: the edge is built and written on [output];
    there is no [result.append] before the [break]. *)
Definition scan_edit_existing (node_source node_destination : loc)
    (func_data : list FuncData) : M unit :=
  for_break func_data
    (fun '(func, can_change_code, can_change_config) =>
       dst_arn <- attr arn node_destination ;;
       if String.eqb dst_arn (Role func) then
         if (can_change_code : bool) then
           let new_edge :=
             mkEdge node_source node_destination
               (reason_edit_existing (FunctionArn func)) in
           found_new_edge new_edge ;;;
           ret Break
         else ret Next
       else ret Next).

(** Source lines 112 to 122: as above, written and not appended. *)
Definition scan_edit_then_pass (node_source node_destination : loc)
    (can_pass_role : bool) (func_data : list FuncData) : M unit :=
  for_break func_data
    (fun '(func, can_change_code, can_change_config) =>
       if (can_change_config : bool) && can_change_code && can_pass_role then
         let new_edge :=
           mkEdge node_source node_destination
             (reason_edit_then_pass (FunctionArn func)) in
         found_new_edge new_edge ;;;
         ret Break
       else ret Next).

(** Source lines 70 to 87: [can_pass_role] is kept for later, the new edge
    is appended to [result]. *)
Definition check_new_function (debug : bool) (node_source node_destination : loc)
    (result : list Edge) : M (bool * list Edge) :=
  src <- deref node_source ;;
  dst_arn <- attr arn node_destination ;;
  can_pass_role <-
    call (local_check_authorization src "iam:PassRole" dst_arn
            [("iam:PassedToService", "lambda.amazonaws.com")] debug) ;;
  if (can_pass_role : bool) then
    can_create_function <-
      call (local_check_authorization src "lambda:CreateFunction" "*" [] debug) ;;
    if (can_create_function : bool) then
      let new_edge := mkEdge node_source node_destination REASON_NEW_FUNCTION in
      found_new_edge new_edge ;;;
      ret (can_pass_role, result ++ [new_edge])
    else ret (can_pass_role, result)
  else ret (can_pass_role, result).

(** Source lines 43 to 122, the body of the inner loop; [continue] leaves
    [result] as it is. *)
Definition check_pair (debug : bool) (function_list : list Function)
    (node_source node_destination : loc) (result : list Edge) : M (list Edge) :=
  if Nat.eqb node_source node_destination then ret result else
  source_is_admin <- attr is_admin node_source ;;
  if (source_is_admin : bool) then ret result else
  dst_arn <- attr arn node_destination ;;
  if negb (contains ":role/" dst_arn) then ret result else
  src_arn <- attr arn node_source ;;
  dst_trust_policy <- attr trust_policy node_destination ;;
  sim_result <-
    call (resource_policy_authorization "lambda.amazonaws.com"
            (get_account_id src_arn) dst_trust_policy "sts:AssumeRole"
            dst_arn [] debug) ;;
  if negb (verdict_eqb sim_result SERVICE_MATCH) then ret result else
  '(can_pass_role, result) <- check_new_function debug node_source node_destination result ;;
  func_data <- function_checks debug function_list node_source ;;
  scan_edit_existing node_source node_destination func_data ;;;
  scan_edit_then_pass node_source node_destination can_pass_role func_data ;;;
  ret result.

(** [LambdaEdgeChecker.return_edges(nodes, output, debug)], with
    [self.session] as its first argument.  [output] is the stream the caller
    hands in, whose text is the [sink] of the world.  [iamclient] is created
    and never used. *)
Definition return_edges (session : option Session) (nodes : list loc)
    (debug : bool) : M (list Edge) :=
  function_list <- gather_functions session ;;
  for_each nodes
    (fun node_source result =>
       for_each nodes
         (fun node_destination result =>
            check_pair debug function_list node_source node_destination result)
         result)
    [].

(** ** The per-source variant the specification allows

    Section 4.2 of the specification lets an implementation run the
    per-function code and configuration checks once per source and reuse the
    answers for every destination.  The two definitions below follow those
    words; the method itself is [return_edges] above. *)

(** The body of the inner loop, with [func_data] handed in. *)
Definition check_pair_hoisted (debug : bool) (func_data : list FuncData)
    (node_source node_destination : loc) (result : list Edge) : M (list Edge) :=
  if Nat.eqb node_source node_destination then ret result else
  source_is_admin <- attr is_admin node_source ;;
  if (source_is_admin : bool) then ret result else
  dst_arn <- attr arn node_destination ;;
  if negb (contains ":role/" dst_arn) then ret result else
  src_arn <- attr arn node_source ;;
  dst_trust_policy <- attr trust_policy node_destination ;;
  sim_result <-
    call (resource_policy_authorization "lambda.amazonaws.com"
            (get_account_id src_arn) dst_trust_policy "sts:AssumeRole"
            dst_arn [] debug) ;;
  if negb (verdict_eqb sim_result SERVICE_MATCH) then ret result else
  '(can_pass_role, result) <- check_new_function debug node_source node_destination result ;;
  scan_edit_existing node_source node_destination func_data ;;;
  scan_edit_then_pass node_source node_destination can_pass_role func_data ;;;
  ret result.

Definition return_edges_hoisted (session : option Session) (nodes : list loc)
    (debug : bool) : M (list Edge) :=
  function_list <- gather_functions session ;;
  for_each nodes
    (fun node_source result =>
       func_data <- function_checks debug function_list node_source ;;
       for_each nodes
         (fun node_destination result =>
            check_pair_hoisted debug func_data node_source node_destination result)
         result)
    [].

(** The same reuse without asking ahead: [func_data] is computed at the
    first pair of the source that needs it and kept for its later pairs. *)
Definition check_pair_memo (debug : bool) (function_list : list Function)
    (node_source node_destination : loc)
    (acc : list Edge * option (list FuncData))
    : M (list Edge * option (list FuncData)) :=
  let '(result, cache) := acc in
  if Nat.eqb node_source node_destination then ret (result, cache) else
  source_is_admin <- attr is_admin node_source ;;
  if (source_is_admin : bool) then ret (result, cache) else
  dst_arn <- attr arn node_destination ;;
  if negb (contains ":role/" dst_arn) then ret (result, cache) else
  src_arn <- attr arn node_source ;;
  dst_trust_policy <- attr trust_policy node_destination ;;
  sim_result <-
    call (resource_policy_authorization "lambda.amazonaws.com"
            (get_account_id src_arn) dst_trust_policy "sts:AssumeRole"
            dst_arn [] debug) ;;
  if negb (verdict_eqb sim_result SERVICE_MATCH) then ret (result, cache) else
  '(can_pass_role, result) <- check_new_function debug node_source node_destination result ;;
  func_data <-
    match cache with
    | Some func_data => ret func_data
    | None => function_checks debug function_list node_source
    end ;;
  scan_edit_existing node_source node_destination func_data ;;;
  scan_edit_then_pass node_source node_destination can_pass_role func_data ;;;
  ret (result, Some func_data).

Definition return_edges_memo (session : option Session) (nodes : list loc)
    (debug : bool) : M (list Edge) :=
  function_list <- gather_functions session ;;
  for_each nodes
    (fun node_source result =>
       '(result, _) <-
         for_each nodes
           (fun node_destination acc =>
              check_pair_memo debug function_list node_source node_destination acc)
           (result, None) ;;
       ret result)
    [].

(** ** What a pass reads

    The port calls a pair triggers, named so that statements can speak of
    them.  They read the Node objects of a world and nothing else. *)

(** Gates 1 to 3 (source lines 44 to 53): the pair is not skipped before the
    trust policy is looked at. *)
Definition reaches_gate (w : World) (node_source node_destination : loc) : bool :=
  negb (Nat.eqb node_source node_destination)
  && negb (is_admin (principals w node_source))
  && contains ":role/" (arn (principals w node_destination)).

(** The call of source lines 56 to 64. *)
Definition gate_verdict (debug : bool) (w : World)
    (node_source node_destination : loc) : Result ResourcePolicyEvalResult :=
  resource_policy_authorization "lambda.amazonaws.com"
    (get_account_id (arn (principals w node_source)))
    (trust_policy (principals w node_destination)) "sts:AssumeRole"
    (arn (principals w node_destination)) [] debug.

(** The call of source lines 70 to 73. *)
Definition pass_role_check (debug : bool) (w : World)
    (node_source node_destination : loc) : Result bool :=
  local_check_authorization (principals w node_source) "iam:PassRole"
    (arn (principals w node_destination))
    [("iam:PassedToService", "lambda.amazonaws.com")] debug.

(** The call of source lines 77 to 79. *)
Definition create_function_check (debug : bool) (w : World)
    (node_source : loc) : Result bool :=
  local_check_authorization (principals w node_source) "lambda:CreateFunction"
    "*" [] debug.

(** The calls of source lines 91 to 96. *)
Definition update_code_check (debug : bool) (w : World) (node_source : loc)
    (func : Function) : Result bool :=
  local_check_authorization (principals w node_source)
    "lambda:UpdateFunctionCode" (FunctionArn func) [] debug.

Definition update_config_check (debug : bool) (w : World) (node_source : loc)
    (func : Function) : Result bool :=
  local_check_authorization (principals w node_source)
    "lambda:UpdateFunctionConfiguration" (FunctionArn func) [] debug.

(** The answer of a check, read as a boolean. *)
Definition answer_of (r : Result bool) : bool :=
  match r with
  | Ok b => b
  | Raised _ => false
  end.

(** [func_data] for a source, when every check answers. *)
Definition func_data_of (debug : bool) (w : World) (node_source : loc)
    (function_list : list Function) : list FuncData :=
  map (fun func =>
         (func, answer_of (update_code_check debug w node_source func),
          answer_of (update_config_check debug w node_source func)))
    function_list.

(** The line written for an edge (source lines 86, 108 and 121). *)
Definition finding_line (w : World) (e : Edge) : string :=
  "Found new edge: "
  ++ describe_edge (principals w (source e)) (principals w (destination e)) (reason e)
  ++ LF.

(** The function at which the scan of source lines 100 to 109 stops. *)
Definition edit_existing_target (dst_arn : string) (func_data : list FuncData)
    : option FuncData :=
  find (fun '(func, can_change_code, _) =>
          String.eqb dst_arn (Role func) && (can_change_code : bool))
    func_data.

(** The function at which the scan of source lines 112 to 122 stops. *)
Definition edit_then_pass_target (can_pass_role : bool) (func_data : list FuncData)
    : option FuncData :=
  find (fun '(func, can_change_code, can_change_config) =>
          (can_change_config : bool) && can_change_code && can_pass_role)
    func_data.

(** What a scan writes: the line of the edge it builds at its target. *)
Definition scan_lines (w : World) (node_source node_destination : loc)
    (why : string -> string) (target : option FuncData) : list string :=
  match target with
  | Some (func, _, _) =>
      [finding_line w (mkEdge node_source node_destination (why (FunctionArn func)))]
  | None => []
  end.

(** The pair passes the four gates of source lines 44 to 67. *)
Definition passes_gate (debug : bool) (w : World)
    (node_source node_destination : loc) : Prop :=
  reaches_gate w node_source node_destination = true
  /\ gate_verdict debug w node_source node_destination = Ok SERVICE_MATCH.

(** The functions a pass scans: every page of every Lambda region, in
    order; none without a session. *)
Definition function_list_of (session : option Session) (w : World) : list Function :=
  match session with
  | Some s =>
      flat_map (fun region => List.concat (inventory w region))
        (get_available_regions s "lambda")
  | None => []
  end.

(** The progress line of source line 28. *)
Definition progress_lines (session : option Session) : list string :=
  match session with
  | Some _ => ["Searching through Lambda-supported regions for existing functions."]
  | None => []
  end.

Definition is_service_match (r : Result ResourcePolicyEvalResult) : bool :=
  match r with
  | Ok SERVICE_MATCH => true
  | _ => false
  end.

Definition is_granted (r : Result bool) : bool :=
  match r with
  | Ok true => true
  | _ => false
  end.

(** The pair qualifies for the new-function edge: it passes the gates and
    the source may pass the role and create functions. *)
Definition new_function_pair (debug : bool) (w : World)
    (node_source node_destination : loc) : bool :=
  reaches_gate w node_source node_destination
  && is_service_match (gate_verdict debug w node_source node_destination)
  && is_granted (pass_role_check debug w node_source node_destination)
  && is_granted (create_function_check debug w node_source).

(** The new-function edges of a node list, in the order of the two loops. *)
Definition new_function_edges (debug : bool) (w : World) (nodes : list loc) : list Edge :=
  flat_map
    (fun node_source =>
       flat_map
         (fun node_destination =>
            if new_function_pair debug w node_source node_destination
            then [mkEdge node_source node_destination REASON_NEW_FUNCTION]
            else [])
         nodes)
    nodes.

(** Two worlds hold the same Node objects and the same inventory; the text
    already written may differ. *)
Definition same_store (w1 w2 : World) : Prop :=
  (forall node, principals w1 node = principals w2 node)
  /\ (forall region, inventory w1 region = inventory w2 region).

(** The edges a finished call hands back; none when it raised. *)
Definition returned {A : Type} (r : Result (list A)) : list A :=
  match r with
  | Ok l => l
  | Raised _ => []
  end.

(** Neither policy check raises, whatever it is asked. *)
Definition ports_answer : Prop :=
  (forall service account policy action resource context debug,
      exists v,
        resource_policy_authorization service account policy action resource
          context debug = Ok v)
  /\ (forall node action resource context debug,
         exists b, local_check_authorization node action resource context debug = Ok b).

(** ** Computations that only read the store and only append text

    [advance w w' out prt]: from [w] to [w'] the Node objects and the
    inventory stay, [out] is appended to the output stream and [prt] to the
    standard output. *)
Definition advance (w w' : World) (out prt : list string) : Prop :=
  principals w' = principals w
  /\ inventory w' = inventory w
  /\ sink w' = sink w ++ out
  /\ stdout w' = stdout w ++ prt.

(** [steady m]: run on two worlds with the same store, [m] ends the same
    way and appends the same text. *)
Definition steady {A : Type} (m : M A) : Prop :=
  forall w1 w2, same_store w1 w2 ->
    exists out prt,
      snd (m w1) = snd (m w2)
      /\ advance w1 (fst (m w1)) out prt
      /\ advance w2 (fst (m w2)) out prt.

(** [answers m]: [m] never raises. *)
Definition answers {A : Type} (m : M A) : Prop :=
  forall w, exists a, snd (m w) = Ok a.

(** [quiet m]: [m] prints nothing. *)
Definition quiet {A : Type} (m : M A) : Prop :=
  forall w, stdout (fst (m w)) = stdout w.

(** [findings m]: [m] leaves the Node objects alone and writes nothing on
    [output] but lines of edges it found. *)
Definition findings {A : Type} (m : M A) : Prop :=
  forall w,
    principals (fst (m w)) = principals w
    /\ exists edges, sink (fst (m w)) = sink w ++ map (finding_line w) edges.

(** The cached [func_data], if any, is what the checks answer. *)
Definition cache_ok (debug : bool) (function_list : list Function) (w0 : World)
    (node_source : loc) (cache : option (list FuncData)) : Prop :=
  match cache with
  | None => True
  | Some func_data =>
      forall w, same_store w0 w ->
        function_checks debug function_list node_source w = (w, Ok func_data)
  end.

(** ** More of what a pass does *)

(** A policy check that the body of the pair asks raises [e]: the trust
    policy check, or, once that one has answered SERVICE_MATCH, the
    pass-role check, the create-function check that follows a granted
    pass-role, or a code or configuration check on a listed function. *)
Definition policy_check_raised (debug : bool) (w : World)
    (function_list : list Function) (node_source node_destination : loc)
    (e : Exn) : Prop :=
  gate_verdict debug w node_source node_destination = Raised e
  \/ (gate_verdict debug w node_source node_destination = Ok SERVICE_MATCH
      /\ (pass_role_check debug w node_source node_destination = Raised e
          \/ (pass_role_check debug w node_source node_destination = Ok true
              /\ create_function_check debug w node_source = Raised e)
          \/ exists func,
               In func function_list
               /\ (update_code_check debug w node_source func = Raised e
                   \/ update_config_check debug w node_source func = Raised e))).

(** The lines the body of a pair writes when its checks answer: the
    new-function line, then the line of the first scan, then the line of
    the second. *)
Definition pair_lines (debug : bool) (w : World) (function_list : list Function)
    (node_source node_destination : loc) : list string :=
  let can_pass_role := answer_of (pass_role_check debug w node_source node_destination) in
  let func_data := func_data_of debug w node_source function_list in
  (if new_function_pair debug w node_source node_destination
   then [finding_line w (mkEdge node_source node_destination REASON_NEW_FUNCTION)]
   else [])
  ++ scan_lines w node_source node_destination reason_edit_existing
       (edit_existing_target (arn (principals w node_destination)) func_data)
  ++ scan_lines w node_source node_destination reason_edit_then_pass
       (edit_then_pass_target can_pass_role func_data).

(** The lines a whole pass writes when its checks answer: those of the
    pairs that pass the gates, in the order of the two loops. *)
Definition pass_lines (debug : bool) (w : World) (function_list : list Function)
    (nodes : list loc) : list string :=
  flat_map
    (fun node_source =>
       flat_map
         (fun node_destination =>
            if reaches_gate w node_source node_destination
               && is_service_match (gate_verdict debug w node_source node_destination)
            then pair_lines debug w function_list node_source node_destination
            else [])
         nodes)
    nodes.

(** ** The pairs of a pass, one by one *)

(** The policy checks the body of a pair asks all answer: the trust policy
    check when the pair is not skipped and, once that one has answered
    SERVICE_MATCH, the pass-role check, the create-function check that
    follows a granted pass-role, and the code and configuration checks on
    the listed functions. *)
Definition pair_checks_answer (debug : bool) (w : World)
    (function_list : list Function) (node_source node_destination : loc) : Prop :=
  reaches_gate w node_source node_destination = true ->
  (exists v, gate_verdict debug w node_source node_destination = Ok v)
  /\ (gate_verdict debug w node_source node_destination = Ok SERVICE_MATCH ->
      (exists c, pass_role_check debug w node_source node_destination = Ok c)
      /\ (pass_role_check debug w node_source node_destination = Ok true ->
          exists b, create_function_check debug w node_source = Ok b)
      /\ (forall func, In func function_list ->
            (exists b, update_code_check debug w node_source func = Ok b)
            /\ (exists b, update_config_check debug w node_source func = Ok b))).

(** The policy checks a pass over [nodes] asks all answer. *)
Definition pass_checks_answer (debug : bool) (w : World)
    (function_list : list Function) (nodes : list loc) : Prop :=
  forall s d, In s nodes -> In d nodes -> pair_checks_answer debug w function_list s d.

(** The ordered pairs of a node list, in the order the two loops of source
    lines 41 and 42 visit them. *)
Definition pairs_in_loop_order (nodes : list loc) : list (loc * loc) :=
  list_prod nodes nodes.

(** The bodies of a run of pairs, one after the other, each handing
    [result] to the next. *)
Definition run_pairs (debug : bool) (function_list : list Function)
    (pairs : list (loc * loc)) (result : list Edge) : M (list Edge) :=
  for_each pairs
    (fun pair result => check_pair debug function_list (fst pair) (snd pair) result)
    result.

End Model.

(* ================================================================== *)
(** ** A concrete account

    A small policy language and an evaluator for it, enough to run the
    scenarios of the specification's section 8. *)

Module Scenario.

Inductive Statement : Type :=
  | AllowAction (action resource : string)
  | AllowService (service action : string)
  | DenyService (service action : string)
  | Garbled.

Definition Policy : Type := list Statement.

Definition is_garbled (st : Statement) : bool :=
  match st with
  | Garbled => true
  | _ => false
  end.

Definition allows (action resource : string) (st : Statement) : bool :=
  match st with
  | AllowAction a r => String.eqb a action && (String.eqb r "*" || String.eqb r resource)
  | _ => false
  end.

Definition trusts (service action : string) (st : Statement) : bool :=
  match st with
  | AllowService s a => String.eqb s service && String.eqb a action
  | _ => false
  end.

Definition denies (service action : string) (st : Statement) : bool :=
  match st with
  | DenyService s a => String.eqb s service && String.eqb a action
  | _ => false
  end.

(** The identity policies of a node grant the action on the resource.  A
    strict evaluator raises on a statement it cannot read; a lenient one
    passes over it. *)
Definition local_check (strict : bool) (node : Node Policy) (action resource : string)
    (context : RequestContext) (debug : bool) : Result bool :=
  let statements := List.concat (attached_policies node) in
  if strict && existsb is_garbled statements then Raised "malformed policy document"
  else Ok (existsb (allows action resource) statements).

(** Deny overrides allow; no policy, no match. *)
Definition resource_check (strict : bool) (service account : string)
    (policy : option Policy) (action resource : string) (context : RequestContext)
    (debug : bool) : Result ResourcePolicyEvalResult :=
  match policy with
  | None => Ok NO_MATCH
  | Some statements =>
      if strict && existsb is_garbled statements then Raised "malformed policy document"
      else if existsb (denies service action) statements then Ok EXPLICIT_DENY
      else if existsb (trusts service action) statements then Ok SERVICE_MATCH
      else Ok NO_MATCH
  end.

Definition oracle (strict : bool) : Imports := {|
  PolicyDocument := Policy;
  resource_policy_authorization := resource_check strict;
  local_check_authorization := local_check strict;
  get_account_id := fun a => substring 13 12 a;
  describe_edge := fun src dst why => (arn src ++ " " ++ why ++ " " ++ arn dst)%string
|}.

Definition admin_arn : string := "arn:aws:iam::123456789012:user/admin".
Definition alice_arn : string := "arn:aws:iam::123456789012:user/alice".
Definition mallory_arn : string := "arn:aws:iam::123456789012:user/mallory".
Definition role_r_arn : string := "arn:aws:iam::123456789012:role/RoleR".
Definition role_s_arn : string := "arn:aws:iam::123456789012:role/RoleS".
Definition role_t_arn : string := "arn:aws:iam::123456789012:role/RoleT".
Definition function_f_arn : string := "arn:aws:lambda:us-east-1:123456789012:function:F".
Definition function_g_arn : string := "arn:aws:lambda:us-east-1:123456789012:function:G".

(** The references of the principals. *)
Definition admin : loc := 0.
Definition alice : loc := 1.
Definition role_r : loc := 2.
Definition role_t : loc := 3.
Definition mallory : loc := 4.

(** RoleR trusts Lambda; RoleT names Lambda and denies it. *)
Definition lambda_trust : Policy := [AllowService "lambda.amazonaws.com" "sts:AssumeRole"].
Definition lambda_denied : Policy :=
  [AllowService "lambda.amazonaws.com" "sts:AssumeRole";
   DenyService "lambda.amazonaws.com" "sts:AssumeRole"].

(** The Node objects, with the identity policy of Alice left open. *)
Definition account (alice_policy : Policy) (node : loc) : Node Policy :=
  match node with
  | 0 => mkNode admin_arn true None [[AllowAction "*" "*"]]
  | 1 => mkNode alice_arn false None [alice_policy]
  | 2 => mkNode role_r_arn false (Some lambda_trust) []
  | 3 => mkNode role_t_arn false (Some lambda_denied) []
  | _ => mkNode mallory_arn false None [[Garbled]]
  end.

Definition session : Session :=
  mkSession (fun service =>
               if String.eqb service "lambda" then ["us-east-1"; "eu-west-1"] else []).

(** Functions deployed in us-east-1, one page; none elsewhere. *)
Definition deployed (functions : list Function) (region : string) : list (list Function) :=
  if String.eqb region "us-east-1" then [functions] else [].

Definition world (strict : bool) (alice_policy : Policy) (functions : list Function)
    : World (imports := oracle strict) :=
  mkWorld (imports := oracle strict) (account alice_policy) (deployed functions) [] [].

(** Scenario 1: Alice may pass roles and create functions. *)
Definition alice_creates : Policy :=
  [AllowAction "iam:PassRole" "*"; AllowAction "lambda:CreateFunction" "*"].

(** Scenario 3: function F runs as RoleR and Alice may update its code. *)
Definition function_f : Function := mkFunction function_f_arn role_r_arn.
Definition alice_edits_f : Policy :=
  [AllowAction "lambda:UpdateFunctionCode" function_f_arn].

(** Scenario 4: function G runs as another role; Alice may pass roles,
    create functions and update the code and configuration of G. *)
Definition function_g : Function := mkFunction function_g_arn role_s_arn.
Definition alice_repurposes_g : Policy :=
  [AllowAction "iam:PassRole" "*"; AllowAction "lambda:CreateFunction" "*";
   AllowAction "lambda:UpdateFunctionCode" function_g_arn;
   AllowAction "lambda:UpdateFunctionConfiguration" function_g_arn].

(** A pass with [debug=False]. *)
Definition run (strict : bool) (s : option Session) (nodes : list loc)
    (w : World (imports := oracle strict)) :=
  return_edges (imports := oracle strict) s nodes false w.

(** The edges the scenarios speak of. *)
Definition new_function_edge : Edge := mkEdge alice role_r REASON_NEW_FUNCTION.
Definition edit_f_edge : Edge := mkEdge alice role_r (reason_edit_existing function_f_arn).
Definition repurpose_g_edge : Edge := mkEdge alice role_r (reason_edit_then_pass function_g_arn).

End Scenario.

(* ================================================================== *)
(** ** Proofs *)

Notation "x <- m ;; k" := (bind m (fun x => k))
  (at level 61, m at next level, right associativity).
Notation "m ;;; k" := (bind m (fun _ => k))
  (at level 61, right associativity).

Section Properties.

Context {imports : Imports}.

(** *** The monad *)

Lemma bind_ok {A B : Type} (m : M A) (k : A -> M B) w w1 a :
  m w = (w1, Ok a) -> bind m k w = k a w1.
Proof. intros H. unfold bind. now rewrite H. Qed.

Lemma bind_ok_inv {A B : Type} (m : M A) (k : A -> M B) w b :
  snd (bind m k w) = Ok b ->
  exists w1 a, m w = (w1, Ok a) /\ snd (k a w1) = Ok b.
Proof.
  unfold bind. destruct (m w) as [w1 [a | e]]; simpl; intros H.
  - now exists w1, a.
  - discriminate.
Qed.

Lemma same_store_refl w : same_store w w.
Proof. now split. Qed.

Lemma same_store_sym w1 w2 : same_store w1 w2 -> same_store w2 w1.
Proof. intros [H1 H2]. split; intros; symmetry; auto. Qed.

Lemma same_store_trans w1 w2 w3 :
  same_store w1 w2 -> same_store w2 w3 -> same_store w1 w3.
Proof.
  intros [H1 H2] [H3 H4]. split; intros.
  - now rewrite H1.
  - now rewrite H2.
Qed.

Lemma advance_same_store w w' out prt : advance w w' out prt -> same_store w w'.
Proof. intros (Hp & Hi & _). split; intros; [now rewrite Hp | now rewrite Hi]. Qed.

Lemma advance_refl w : advance w w [] [].
Proof. unfold advance. now rewrite !app_nil_r. Qed.

Lemma advance_trans w w1 w2 out1 prt1 out2 prt2 :
  advance w w1 out1 prt1 -> advance w1 w2 out2 prt2 ->
  advance w w2 (out1 ++ out2) (prt1 ++ prt2).
Proof.
  intros (Hp & Hi & Hs & Ho) (Hp' & Hi' & Hs' & Ho'). unfold advance.
  rewrite Hp', Hi', Hs', Ho', Hs, Ho, !app_assoc. auto.
Qed.

Lemma steady_frame {A : Type} (m : M A) w :
  steady m -> exists out prt, advance w (fst (m w)) out prt.
Proof.
  intros H. destruct (H w w (same_store_refl w)) as (out & prt & _ & Ha & _).
  now exists out, prt.
Qed.

Lemma steady_same_store {A : Type} (m : M A) w0 w :
  steady m -> same_store w0 w -> same_store w0 (fst (m w)).
Proof.
  intros H Hs. destruct (steady_frame m w H) as (out & prt & Ha).
  eapply same_store_trans; [exact Hs | eapply advance_same_store; exact Ha].
Qed.

Lemma steady_outcome {A : Type} (m : M A) w1 w2 :
  steady m -> same_store w1 w2 -> snd (m w1) = snd (m w2).
Proof. intros H Hs. now destruct (H w1 w2 Hs) as (out & prt & Heq & _). Qed.

Lemma steady_ret {A : Type} (a : A) : steady (ret a).
Proof.
  intros w1 w2 _. exists [], []. simpl. repeat split; apply advance_refl.
Qed.

Lemma steady_call {A : Type} (r : Result A) : steady (call r).
Proof.
  intros w1 w2 _. exists [], []. simpl. repeat split; apply advance_refl.
Qed.

Lemma steady_attr {A : Type} (field : Node PolicyDocument -> A) node :
  steady (attr field node).
Proof.
  intros w1 w2 [Hp _]. exists [], []. simpl. rewrite Hp.
  repeat split; apply advance_refl.
Qed.

Lemma steady_deref node : steady (deref node).
Proof.
  intros w1 w2 [Hp _]. exists [], []. simpl. rewrite Hp.
  repeat split; apply advance_refl.
Qed.

Lemma steady_paginate region : steady (paginate region).
Proof.
  intros w1 w2 [_ Hi]. exists [], []. simpl. rewrite Hi.
  repeat split; apply advance_refl.
Qed.

Lemma steady_output_write text : steady (output_write text).
Proof.
  intros w1 w2 _. exists [text], []. unfold advance. simpl.
  rewrite !app_nil_r. auto 10.
Qed.

Lemma steady_print line : steady (print line).
Proof.
  intros w1 w2 _. exists [], [line]. unfold advance. simpl.
  rewrite !app_nil_r. auto 10.
Qed.

Lemma steady_bind {A B : Type} (m : M A) (k : A -> M B) :
  steady m -> (forall a, steady (k a)) -> steady (bind m k).
Proof.
  intros Hm Hk w1 w2 Hs.
  destruct (Hm w1 w2 Hs) as (out & prt & Heq & Ha1 & Ha2).
  unfold bind.
  destruct (m w1) as [w1' r1], (m w2) as [w2' r2]. simpl in *. subst r2.
  destruct r1 as [a | e].
  - assert (Hs' : same_store w1' w2').
    { eapply same_store_trans; [apply same_store_sym; eapply advance_same_store; exact Ha1 |].
      eapply same_store_trans; [exact Hs | eapply advance_same_store; exact Ha2]. }
    destruct (Hk a w1' w2' Hs') as (out' & prt' & Heq' & Hb1 & Hb2).
    exists (out ++ out'), (prt ++ prt'). split; [exact Heq' |].
    split; eapply advance_trans; eauto.
  - exists out, prt. simpl. auto.
Qed.

Lemma steady_for_each {A S : Type} (body : A -> S -> M S) (xs : list A) :
  (forall x acc, steady (body x acc)) -> forall acc, steady (for_each xs body acc).
Proof.
  intros Hb. induction xs as [| x rest IH]; intros acc; simpl.
  - apply steady_ret.
  - apply steady_bind; auto.
Qed.

Lemma steady_for_break {A : Type} (body : A -> M LoopCtl) (xs : list A) :
  (forall x, steady (body x)) -> steady (for_break xs body).
Proof.
  intros Hb. induction xs as [| x rest IH]; simpl.
  - apply steady_ret.
  - apply steady_bind; auto. intros [|]; [exact IH | apply steady_ret].
Qed.

(** Every piece of [return_edges] is steady. *)
Ltac steady_step :=
  first
    [ apply steady_ret | apply steady_call | apply steady_attr
    | apply steady_deref | apply steady_paginate | apply steady_output_write
    | apply steady_print
    | apply steady_for_each; intros
    | apply steady_for_break; intros
    | apply steady_bind; [| intros]
    | match goal with
      | |- steady (if ?b then _ else _) => destruct b
      | |- steady (match ?x with _ => _ end) => destruct x
      | |- steady (let _ := _ in _) => cbv zeta
      end ].

Lemma steady_found_new_edge e : steady (found_new_edge e).
Proof. unfold found_new_edge. repeat steady_step. Qed.

Lemma steady_gather_functions session : steady (gather_functions session).
Proof. unfold gather_functions. repeat steady_step. Qed.

Lemma steady_function_checks debug fl s : steady (function_checks debug fl s).
Proof. unfold function_checks. repeat steady_step. Qed.

Lemma steady_scan_edit_existing s d fd : steady (scan_edit_existing s d fd).
Proof.
  unfold scan_edit_existing. apply steady_for_break. intros [[f cc] cf].
  repeat first [ apply steady_found_new_edge | steady_step ].
Qed.

Lemma steady_scan_edit_then_pass s d cpr fd : steady (scan_edit_then_pass s d cpr fd).
Proof.
  unfold scan_edit_then_pass. apply steady_for_break. intros [[f cc] cf].
  repeat first [ apply steady_found_new_edge | steady_step ].
Qed.

Lemma steady_check_new_function debug s d res : steady (check_new_function debug s d res).
Proof.
  unfold check_new_function.
  repeat first [ apply steady_found_new_edge | steady_step ].
Qed.

Lemma steady_check_pair debug fl s d res : steady (check_pair debug fl s d res).
Proof.
  unfold check_pair.
  repeat first
    [ apply steady_check_new_function | apply steady_function_checks
    | apply steady_scan_edit_existing | apply steady_scan_edit_then_pass
    | steady_step ].
Qed.

Lemma steady_check_pair_hoisted debug fd s d res :
  steady (check_pair_hoisted debug fd s d res).
Proof.
  unfold check_pair_hoisted.
  repeat first
    [ apply steady_check_new_function
    | apply steady_scan_edit_existing | apply steady_scan_edit_then_pass
    | steady_step ].
Qed.

Lemma steady_return_edges session nodes debug : steady (return_edges session nodes debug).
Proof.
  unfold return_edges.
  repeat first [ apply steady_gather_functions | apply steady_check_pair | steady_step ].
Qed.

(** *** One pair *)

Lemma reaches_gate_same_store w1 w2 s d :
  same_store w1 w2 -> reaches_gate w1 s d = reaches_gate w2 s d.
Proof. intros [Hp _]. unfold reaches_gate. now rewrite !Hp. Qed.

Lemma gate_verdict_same_store debug w1 w2 s d :
  same_store w1 w2 -> gate_verdict debug w1 s d = gate_verdict debug w2 s d.
Proof. intros [Hp _]. unfold gate_verdict. now rewrite !Hp. Qed.

Lemma new_function_pair_same_store debug w1 w2 s d :
  same_store w1 w2 -> new_function_pair debug w1 s d = new_function_pair debug w2 s d.
Proof.
  intros Hs. unfold new_function_pair.
  rewrite (reaches_gate_same_store w1 w2 s d Hs).
  rewrite (gate_verdict_same_store debug w1 w2 s d Hs).
  destruct Hs as [Hp _].
  unfold pass_role_check, create_function_check. now rewrite !Hp.
Qed.

(** The pair is skipped before the trust policy is looked at. *)
Lemma check_pair_skipped debug fl s d res w :
  reaches_gate w s d = false -> check_pair debug fl s d res w = (w, Ok res).
Proof.
  unfold reaches_gate, check_pair. intros H.
  destruct (Nat.eqb s d); [reflexivity |].
  unfold bind at 1, attr at 1.
  destruct (is_admin (principals w s)); [reflexivity |].
  unfold bind at 1, attr at 1.
  simpl in H. rewrite H. reflexivity.
Qed.

(** The pair reaches the trust policy check: the rest of the body hangs on
    the verdict. *)
Lemma check_pair_reaches debug fl s d res w :
  reaches_gate w s d = true ->
  check_pair debug fl s d res w =
  match gate_verdict debug w s d with
  | Raised e => (w, Raised e)
  | Ok SERVICE_MATCH =>
      bind (check_new_function debug s d res)
        (fun '(can_pass_role, result) =>
           func_data <- function_checks debug fl s ;;
           scan_edit_existing s d func_data ;;;
           scan_edit_then_pass s d can_pass_role func_data ;;;
           ret result) w
  | Ok _ => (w, Ok res)
  end.
Proof.
  unfold reaches_gate, check_pair, gate_verdict. intros H.
  apply andb_prop in H as [H Hrole]. apply andb_prop in H as [Hne Hadm].
  destruct (Nat.eqb s d); [discriminate |].
  unfold bind at 1, attr at 1.
  destruct (is_admin (principals w s)); [discriminate |].
  unfold bind at 1, attr at 1. rewrite Hrole. cbn beta iota delta [negb].
  unfold bind at 1, attr at 1. cbn beta iota.
  unfold bind at 1, attr at 1. cbn beta iota.
  unfold bind at 1, call at 1. cbn beta iota.
  destruct (resource_policy_authorization _ _ _ _ _ _ _) as [[| |] | e]; reflexivity.
Qed.

(** The new-function step: what it answers and what it appends. *)
Lemma check_new_function_acc debug s d res w :
  check_new_function debug s d res w =
  (fst (check_new_function debug s d [] w),
   match snd (check_new_function debug s d [] w) with
   | Ok (can_pass_role, new) => Ok (can_pass_role, res ++ new)
   | Raised e => Raised e
   end).
Proof.
  unfold check_new_function, bind, deref, attr, call, ret, found_new_edge,
    output_write, bind, deref.
  destruct (local_check_authorization _ "iam:PassRole" _ _ _) as [[|] | e]; simpl;
    try (rewrite app_nil_r; reflexivity); try reflexivity.
  destruct (local_check_authorization _ "lambda:CreateFunction" _ _ _) as [[|] | e];
    simpl; try (rewrite app_nil_r; reflexivity); reflexivity.
Qed.

Lemma check_new_function_result debug s d res w can_pass_role out :
  snd (check_new_function debug s d res w) = Ok (can_pass_role, out) ->
  pass_role_check debug w s d = Ok can_pass_role
  /\ out = res ++
       (if is_granted (pass_role_check debug w s d)
           && is_granted (create_function_check debug w s)
        then [mkEdge s d REASON_NEW_FUNCTION] else []).
Proof.
  unfold check_new_function, pass_role_check, create_function_check, bind, deref,
    attr, call, ret, found_new_edge, output_write, bind, deref.
  destruct (local_check_authorization _ "iam:PassRole" _ _ _) as [[|] | e]; simpl;
    [| intros [= <- <-]; rewrite app_nil_r; auto | discriminate].
  destruct (local_check_authorization _ "lambda:CreateFunction" _ _ _) as [[|] | e];
    simpl; [| | discriminate]; intros [= <- <-]; rewrite ?app_nil_r; auto.
Qed.

(** The body of the inner loop touches [result] only by appending. *)
Lemma check_pair_acc debug fl s d res w :
  check_pair debug fl s d res w =
  (fst (check_pair debug fl s d [] w),
   match snd (check_pair debug fl s d [] w) with
   | Ok new => Ok (res ++ new)
   | Raised e => Raised e
   end).
Proof.
  destruct (reaches_gate w s d) eqn:Hr.
  - rewrite !(check_pair_reaches debug fl s d _ w Hr).
    destruct (gate_verdict debug w s d) as [[| |] | e]; simpl;
      try (rewrite app_nil_r; reflexivity); try reflexivity.
    unfold bind at 1 5 9. rewrite (check_new_function_acc debug s d res w).
    destruct (check_new_function debug s d [] w) as [w1 [[c new] | e]]; simpl;
      [| reflexivity].
    unfold bind.
    destruct (function_checks debug fl s w1) as [w2 [fd | e]]; [| reflexivity].
    destruct (scan_edit_existing s d fd w2) as [w3 [[] | e]]; [| reflexivity].
    destruct (scan_edit_then_pass s d c fd w3) as [w4 [[] | e]]; reflexivity.
  - rewrite !(check_pair_skipped debug fl s d _ w Hr). simpl.
    now rewrite app_nil_r.
Qed.

(** What a pair adds to [result] when its body runs to the end. *)
Lemma check_pair_result debug fl s d res w out :
  snd (check_pair debug fl s d res w) = Ok out ->
  out = res ++
    (if new_function_pair debug w s d then [mkEdge s d REASON_NEW_FUNCTION] else []).
Proof.
  unfold new_function_pair.
  destruct (reaches_gate w s d) eqn:Hr.
  - rewrite (check_pair_reaches debug fl s d res w Hr).
    destruct (gate_verdict debug w s d) as [[| |] | e]; simpl;
      try (intros [= <-]; now rewrite app_nil_r); try discriminate.
    intros H. apply bind_ok_inv in H as (w1 & [c res1] & Hn & H).
    apply bind_ok_inv in H as (w2 & fd & _ & H).
    apply bind_ok_inv in H as (w3 & [] & _ & H).
    apply bind_ok_inv in H as (w4 & [] & _ & H).
    simpl in H. injection H as <-.
    apply (f_equal snd) in Hn. simpl in Hn.
    now apply check_new_function_result in Hn as [_ ->].
  - rewrite (check_pair_skipped debug fl s d res w Hr). simpl.
    intros [= <-]. now rewrite app_nil_r.
Qed.

(** *** The function inventory *)

Lemma list_regions_run (regions : list string) acc w :
  for_each regions
    (fun lambda_client function_list =>
       pages <- paginate lambda_client ;;
       ret (function_list ++ List.concat pages)) acc w
  = (w, Ok (acc ++ flat_map (fun region => List.concat (inventory w region)) regions)).
Proof.
  revert acc. induction regions as [| r rest IH]; intros acc; simpl.
  - unfold ret. now rewrite app_nil_r.
  - unfold bind at 1. unfold bind at 1. unfold paginate at 1. simpl.
    rewrite IH. now rewrite app_assoc.
Qed.

Lemma gather_functions_run session w :
  gather_functions session w =
  ({| principals := principals w; inventory := inventory w; sink := sink w;
      stdout := stdout w ++ progress_lines session |},
   Ok (function_list_of session w)).
Proof.
  unfold gather_functions, function_list_of, progress_lines.
  destruct session as [s |].
  - unfold bind at 1. unfold bind at 1. unfold print at 1. simpl.
    now rewrite list_regions_run.
  - unfold bind at 1. simpl. unfold ret. rewrite app_nil_r. now destruct w.
Qed.

Lemma gather_functions_same_store session w :
  same_store w (fst (gather_functions session w)).
Proof. rewrite gather_functions_run. now split. Qed.

(** *** Loops that collect *)

(** A loop whose body appends [g x] to the accumulator, whenever it ends,
    collects [flat_map g xs]. *)
Lemma for_each_collects {A E : Type} (g : A -> list E)
    (body : A -> list E -> M (list E)) (w0 : World) :
  (forall x acc, steady (body x acc)) ->
  (forall x acc w out,
      same_store w0 w -> snd (body x acc w) = Ok out -> out = acc ++ g x) ->
  forall xs acc w out,
    same_store w0 w -> snd (for_each xs body acc w) = Ok out ->
    out = acc ++ flat_map g xs.
Proof.
  intros Hst Hb. induction xs as [| x rest IH]; intros acc w out Hs H; simpl in *.
  - injection H as <-. now rewrite app_nil_r.
  - apply bind_ok_inv in H as (w1 & acc1 & Hx & H).
    assert (Hs1 : same_store w0 w1).
    { change w1 with (fst (w1, Ok acc1 : Result (list E))). rewrite <- Hx.
      now apply steady_same_store. }
    apply (f_equal snd) in Hx. simpl in Hx.
    apply (Hb x acc w acc1 Hs) in Hx. subst acc1.
    rewrite (IH _ _ _ Hs1 H). now rewrite app_assoc.
Qed.

(** A loop over a list that holds an element on which the body raises,
    whatever the accumulator, raises. *)
Lemma for_each_raises {A S : Type} (body : A -> S -> M S) (w0 : World) (x : A) :
  (forall y acc, steady (body y acc)) ->
  (forall acc w, same_store w0 w -> exists e, snd (body x acc w) = Raised e) ->
  forall xs acc w,
    In x xs -> same_store w0 w -> exists e, snd (for_each xs body acc w) = Raised e.
Proof.
  intros Hst Hx. induction xs as [| y rest IH]; intros acc w Hin Hs; [contradiction |].
  simpl. unfold bind.
  destruct (body y acc w) as [w1 [acc1 | e]] eqn:Hy.
  - destruct Hin as [-> | Hin].
    + destruct (Hx acc w Hs) as [e He]. rewrite Hy in He. discriminate.
    + apply IH; [exact Hin |].
      change w1 with (fst (w1, Ok acc1 : Result S)). rewrite <- Hy.
      now apply steady_same_store.
  - now exists e.
Qed.

(** A loop whose body never raises does not raise. *)
Lemma for_each_answers {A S : Type} (body : A -> S -> M S) :
  (forall x acc w, exists acc', snd (body x acc w) = Ok acc') ->
  forall xs acc w, exists acc', snd (for_each xs body acc w) = Ok acc'.
Proof.
  intros Hb. induction xs as [| x rest IH]; intros acc w; simpl.
  - now exists acc.
  - unfold bind. destruct (Hb x acc w) as [acc1 H1].
    destruct (body x acc w) as [w1 [a | e]]; simpl in H1; [| discriminate].
    apply IH.
Qed.

Lemma for_break_answers {A : Type} (body : A -> M LoopCtl) :
  (forall x w, exists c, snd (body x w) = Ok c) ->
  forall xs w, exists u, snd (for_break xs body w) = Ok u.
Proof.
  intros Hb. induction xs as [| x rest IH]; intros w; simpl.
  - now exists tt.
  - unfold bind. destruct (Hb x w) as [c H1].
    destruct (body x w) as [w1 [[|] | e]]; simpl in H1; try discriminate.
    + apply IH.
    + now exists tt.
Qed.

(** *** The whole pass *)

(** The edges of a pass that ends: the new-function edges of the qualifying
    pairs, in loop order, and nothing else. *)
Lemma return_edges_result session nodes debug w out :
  snd (return_edges session nodes debug w) = Ok out ->
  out = new_function_edges debug w nodes.
Proof.
  unfold return_edges. intros H.
  apply bind_ok_inv in H as (w1 & fl & Hg & H).
  assert (Hs : same_store w w1).
  { change w1 with (fst (w1, Ok fl : Result (list Function))). rewrite <- Hg.
    apply gather_functions_same_store. }
  unfold new_function_edges.
  apply (for_each_collects
           (fun s => flat_map
              (fun d => if new_function_pair debug w s d
                        then [mkEdge s d REASON_NEW_FUNCTION] else []) nodes)
           _ w) in H; [exact H | | | exact Hs].
  - intros s acc. apply steady_for_each. intros. apply steady_check_pair.
  - intros s acc w2 out2 Hs2 H2.
    apply (for_each_collects
             (fun d => if new_function_pair debug w s d
                       then [mkEdge s d REASON_NEW_FUNCTION] else [])
             _ w) in H2; [exact H2 | | | exact Hs2].
    + intros. apply steady_check_pair.
    + intros d acc3 w3 out3 Hs3 H3. apply check_pair_result in H3.
      now rewrite (new_function_pair_same_store debug w w3 s d Hs3).
Qed.

(** An exception raised in the body of one pair ends the whole pass. *)
Lemma return_edges_raises session nodes debug w s d e :
  In s nodes -> In d nodes ->
  snd (check_pair debug (function_list_of session w) s d [] w) = Raised e ->
  exists e', snd (return_edges session nodes debug w) = Raised e'.
Proof.
  intros Hs Hd Hr. unfold return_edges.
  unfold bind at 1. rewrite gather_functions_run.
  set (w1 := mkWorld _ _ _ _).
  assert (Hw : same_store w w1) by now split.
  apply (for_each_raises _ w s); [| | exact Hs | exact Hw].
  - intros. apply steady_for_each. intros. apply steady_check_pair.
  - intros acc w2 Hs2.
    apply (for_each_raises _ w d); [| | exact Hd | exact Hs2].
    + intros. apply steady_check_pair.
    + intros acc3 w3 Hs3. exists e.
      rewrite check_pair_acc. simpl.
      rewrite <- (steady_outcome _ w w3 (steady_check_pair _ _ _ _ _) Hs3).
      now rewrite Hr.
Qed.

(** *** Passes that end *)

Lemma answers_ret {A : Type} (a : A) : answers (ret a).
Proof. intros w. now exists a. Qed.

Lemma answers_call {A : Type} (r : Result A) :
  (exists a, r = Ok a) -> answers (call r).
Proof. intros [a ->] w. now exists a. Qed.

Lemma answers_attr {A : Type} (field : Node PolicyDocument -> A) node :
  answers (attr field node).
Proof. intros w. now eexists. Qed.

Lemma answers_deref node : answers (deref node).
Proof. intros w. now eexists. Qed.

Lemma answers_output_write text : answers (output_write text).
Proof. intros w. now exists tt. Qed.

Lemma answers_bind {A B : Type} (m : M A) (k : A -> M B) :
  answers m -> (forall a, answers (k a)) -> answers (bind m k).
Proof.
  intros Hm Hk w. unfold bind. destruct (Hm w) as [a Ha].
  destruct (m w) as [w1 [a' | e]]; simpl in Ha; [| discriminate].
  apply Hk.
Qed.

Lemma answers_for_each {A S : Type} (body : A -> S -> M S) xs acc :
  (forall x acc', answers (body x acc')) -> answers (for_each xs body acc).
Proof. intros Hb w. apply for_each_answers. intros. apply Hb. Qed.

Lemma answers_for_break {A : Type} (body : A -> M LoopCtl) xs :
  (forall x, answers (body x)) -> answers (for_break xs body).
Proof. intros Hb w. apply for_break_answers. intros. apply Hb. Qed.

Lemma answers_found_new_edge e : answers (found_new_edge e).
Proof.
  unfold found_new_edge.
  repeat first [ apply answers_deref | apply answers_output_write
               | apply answers_bind; [| intros] ].
Qed.

Ltac answers_step Hports :=
  first
    [ apply answers_ret | apply answers_attr | apply answers_deref
    | apply answers_output_write | apply answers_found_new_edge
    | apply answers_call; apply Hports
    | apply answers_for_each; intros
    | apply answers_for_break; intros
    | apply answers_bind; [| intros]
    | match goal with
      | |- answers (if ?b then _ else _) => destruct b
      | |- answers (match ?x with _ => _ end) => destruct x
      | |- answers (let _ := _ in _) => cbv zeta
      end ].

Lemma answers_check_pair debug fl s d res :
  ports_answer -> answers (check_pair debug fl s d res).
Proof.
  intros [Hr Hl].
  unfold check_pair, check_new_function, function_checks, scan_edit_existing,
    scan_edit_then_pass.
  repeat first [ answers_step Hr | answers_step Hl ].
Qed.

Lemma answers_return_edges session nodes debug :
  ports_answer -> answers (return_edges session nodes debug).
Proof.
  intros Hp w. unfold return_edges, bind at 1. rewrite gather_functions_run.
  apply for_each_answers. intros s acc w1.
  apply for_each_answers. intros d acc2 w2.
  now apply answers_check_pair.
Qed.

(** *** The standard output *)

Lemma quiet_ret {A : Type} (a : A) : quiet (ret a).
Proof. now intros w. Qed.

Lemma quiet_call {A : Type} (r : Result A) : quiet (call r).
Proof. now intros w. Qed.

Lemma quiet_attr {A : Type} (field : Node PolicyDocument -> A) node :
  quiet (attr field node).
Proof. now intros w. Qed.

Lemma quiet_deref node : quiet (deref node).
Proof. now intros w. Qed.

Lemma quiet_output_write text : quiet (output_write text).
Proof. now intros w. Qed.

Lemma quiet_bind {A B : Type} (m : M A) (k : A -> M B) :
  quiet m -> (forall a, quiet (k a)) -> quiet (bind m k).
Proof.
  intros Hm Hk w. unfold bind. specialize (Hm w).
  destruct (m w) as [w1 [a | e]]; simpl in *; [| exact Hm].
  now rewrite Hk.
Qed.

Lemma quiet_for_each {A S : Type} (body : A -> S -> M S) xs :
  (forall x acc, quiet (body x acc)) -> forall acc, quiet (for_each xs body acc).
Proof.
  intros Hb. induction xs as [| x rest IH]; intros acc; simpl.
  - apply quiet_ret.
  - apply quiet_bind; auto.
Qed.

Lemma quiet_for_break {A : Type} (body : A -> M LoopCtl) xs :
  (forall x, quiet (body x)) -> quiet (for_break xs body).
Proof.
  intros Hb. induction xs as [| x rest IH]; simpl.
  - apply quiet_ret.
  - apply quiet_bind; auto. intros [|]; [exact IH | apply quiet_ret].
Qed.

Ltac quiet_step :=
  first
    [ apply quiet_ret | apply quiet_call | apply quiet_attr | apply quiet_deref
    | apply quiet_output_write
    | apply quiet_for_each; intros
    | apply quiet_for_break; intros
    | apply quiet_bind; [| intros]
    | match goal with
      | |- quiet (if ?b then _ else _) => destruct b
      | |- quiet (match ?x with _ => _ end) => destruct x
      | |- quiet (let _ := _ in _) => cbv zeta
      end ].

Lemma quiet_check_pair debug fl s d res : quiet (check_pair debug fl s d res).
Proof.
  unfold check_pair, check_new_function, function_checks, scan_edit_existing,
    scan_edit_then_pass, found_new_edge.
  repeat quiet_step.
Qed.

(** The only line a pass prints is the progress line of an online pass. *)
Lemma return_edges_stdout session nodes debug w :
  stdout (fst (return_edges session nodes debug w)) =
  stdout w ++ progress_lines session.
Proof.
  unfold return_edges, bind at 1. rewrite gather_functions_run.
  set (w1 := mkWorld _ _ _ _).
  change (stdout w ++ progress_lines session) with (stdout w1).
  apply quiet_for_each. intros. apply quiet_for_each. intros.
  apply quiet_check_pair.
Qed.

(** *** The per-function checks, run once *)

Lemma update_checks_same_store debug w1 w2 s f :
  same_store w1 w2 ->
  update_code_check debug w1 s f = update_code_check debug w2 s f
  /\ update_config_check debug w1 s f = update_config_check debug w2 s f.
Proof.
  intros [Hp _]. unfold update_code_check, update_config_check.
  now rewrite Hp.
Qed.

Lemma func_data_of_same_store debug w1 w2 s fl :
  same_store w1 w2 -> func_data_of debug w1 s fl = func_data_of debug w2 s fl.
Proof.
  intros Hs. unfold func_data_of. apply map_ext. intros f.
  now destruct (update_checks_same_store debug w1 w2 s f Hs) as [-> ->].
Qed.

Lemma function_checks_loop debug s fl acc w :
  (forall f, In f fl ->
     (exists b, update_code_check debug w s f = Ok b)
     /\ (exists b, update_config_check debug w s f = Ok b)) ->
  for_each fl
    (fun func func_data =>
       src <- deref s ;;
       can_change_code <-
         call (local_check_authorization src "lambda:UpdateFunctionCode"
                 (FunctionArn func) [] debug) ;;
       can_change_config <-
         call (local_check_authorization src "lambda:UpdateFunctionConfiguration"
                 (FunctionArn func) [] debug) ;;
       ret (func_data ++ [(func, can_change_code, can_change_config)])) acc w
  = (w, Ok (acc ++ func_data_of debug w s fl)).
Proof.
  revert acc. induction fl as [| f rest IH]; intros acc H; simpl.
  - unfold ret. now rewrite app_nil_r.
  - destruct (H f (or_introl eq_refl)) as [[b1 H1] [b2 H2]].
    unfold update_code_check in H1. unfold update_config_check in H2.
    unfold bind at 1. unfold bind at 1. unfold deref at 1. cbn beta iota.
    unfold bind at 1. unfold call at 1. rewrite H1.
    unfold bind at 1. unfold call at 1. rewrite H2.
    unfold ret at 1. rewrite IH by (intros; apply H; now right).
    unfold update_code_check, update_config_check. rewrite H1, H2. simpl.
    now rewrite <- app_assoc.
Qed.

Lemma function_checks_run debug s fl w :
  (forall f, In f fl ->
     (exists b, update_code_check debug w s f = Ok b)
     /\ (exists b, update_config_check debug w s f = Ok b)) ->
  function_checks debug fl s w = (w, Ok (func_data_of debug w s fl)).
Proof. intros H. unfold function_checks. now rewrite function_checks_loop. Qed.

Lemma bind_ext_on {A B : Type} (m : M A) (k1 k2 : A -> M B) w :
  (forall a w1, m w = (w1, Ok a) -> k1 a w1 = k2 a w1) ->
  bind m k1 w = bind m k2 w.
Proof.
  intros H. unfold bind. destruct (m w) as [w1 [a | e]]; [| reflexivity].
  now apply H.
Qed.

(** With the answers of the per-function checks in hand, the body that is
    given them does what the body that asks for them does. *)
Lemma check_pair_hoisted_eq debug fl fd s d res w0 w :
  (forall w', same_store w0 w' -> function_checks debug fl s w' = (w', Ok fd)) ->
  same_store w0 w ->
  check_pair_hoisted debug fd s d res w = check_pair debug fl s d res w.
Proof.
  intros Hfd Hs. unfold check_pair_hoisted, check_pair.
  destruct (Nat.eqb s d); [reflexivity |].
  apply bind_ext_on. intros adm w1 [= <- <-].
  destruct (is_admin (principals w s)); [reflexivity |].
  apply bind_ext_on. intros dst_arn w1 [= <- <-].
  destruct (negb _); [reflexivity |].
  apply bind_ext_on. intros src_arn w1 [= <- <-].
  apply bind_ext_on. intros trust w1 [= <- <-].
  apply bind_ext_on. intros v w1 [= <- Hv].
  destruct (negb _); [reflexivity |].
  apply bind_ext_on. intros [c res1] w1 Hn.
  assert (Hs1 : same_store w0 w1).
  { change w1 with (fst (w1, Ok (c, res1) : Result (bool * list Edge))).
    rewrite <- Hn. apply steady_same_store;
      [apply steady_check_new_function | exact Hs]. }
  symmetry. now rewrite (bind_ok _ _ _ _ _ (Hfd w1 Hs1)).
Qed.

(** Two loops whose bodies agree on every world with the store of [w0]. *)
Lemma for_each_ext_on {A S : Type} (body1 body2 : A -> S -> M S) (w0 : World) :
  (forall x acc, steady (body2 x acc)) ->
  forall xs,
    (forall x acc w, In x xs -> same_store w0 w -> body1 x acc w = body2 x acc w) ->
    forall acc w, same_store w0 w ->
      for_each xs body1 acc w = for_each xs body2 acc w.
Proof.
  intros Hst. induction xs as [| x rest IH]; intros Hext acc w Hs; [reflexivity |].
  simpl. unfold bind. rewrite (Hext x acc w (or_introl eq_refl) Hs).
  destruct (body2 x acc w) as [w1 [acc1 | e]] eqn:Hx; [| reflexivity].
  apply IH.
  - intros y acc' w' Hin. apply Hext. now right.
  - change w1 with (fst (w1, Ok acc1 : Result S)). rewrite <- Hx.
    now apply steady_same_store.
Qed.

(** *** The two scans over [func_data] *)

Lemma found_new_edge_run e w :
  found_new_edge e w =
  ({| principals := principals w; inventory := inventory w;
      sink := sink w ++ [finding_line w e]; stdout := stdout w |}, Ok tt).
Proof. reflexivity. Qed.

Lemma for_break_cons {A : Type} (body : A -> M LoopCtl) x rest w :
  for_break (x :: rest) body w =
  match body x w with
  | (w1, Ok Next) => for_break rest body w1
  | (w1, Ok Break) => (w1, Ok tt)
  | (w1, Raised e) => (w1, Raised e)
  end.
Proof.
  simpl. unfold bind. now destruct (body x w) as [w1 [[|] | e]].
Qed.

Lemma scan_edit_existing_run s d fd w :
  snd (scan_edit_existing s d fd w) = Ok tt
  /\ advance w (fst (scan_edit_existing s d fd w))
       (scan_lines w s d reason_edit_existing
          (edit_existing_target (arn (principals w d)) fd)) [].
Proof.
  unfold scan_edit_existing, edit_existing_target.
  match goal with |- context [for_break fd ?b] => set (body := b) end.
  assert (Hbody : forall f cc cf,
    body (f, cc, cf) w =
    if String.eqb (arn (principals w d)) (Role f) && cc
    then (fst (found_new_edge (mkEdge s d (reason_edit_existing (FunctionArn f))) w),
          Ok Break)
    else (w, Ok Next)).
  { intros. unfold body, bind, attr.
    destruct (String.eqb _ _), cc; reflexivity. }
  clearbody body.
  induction fd as [| [[f cc] cf] rest IH].
  - split; [reflexivity | apply advance_refl].
  - rewrite for_break_cons, Hbody. cbn [find].
    destruct (String.eqb (arn (principals w d)) (Role f) && cc); [| exact IH].
    rewrite found_new_edge_run. simpl.
    split; [reflexivity |]. unfold advance. simpl. now rewrite app_nil_r.
Qed.

Lemma scan_edit_then_pass_run s d cpr fd w :
  snd (scan_edit_then_pass s d cpr fd w) = Ok tt
  /\ advance w (fst (scan_edit_then_pass s d cpr fd w))
       (scan_lines w s d reason_edit_then_pass (edit_then_pass_target cpr fd)) [].
Proof.
  unfold scan_edit_then_pass, edit_then_pass_target.
  match goal with |- context [for_break fd ?b] => set (body := b) end.
  assert (Hbody : forall f cc cf,
    body (f, cc, cf) w =
    if cf && cc && cpr
    then (fst (found_new_edge (mkEdge s d (reason_edit_then_pass (FunctionArn f))) w),
          Ok Break)
    else (w, Ok Next)).
  { intros. unfold body, bind. destruct (cf && cc && cpr); reflexivity. }
  clearbody body.
  induction fd as [| [[f cc] cf] rest IH].
  - split; [reflexivity | apply advance_refl].
  - rewrite for_break_cons, Hbody. cbn [find].
    destruct (cf && cc && cpr); [| exact IH].
    rewrite found_new_edge_run. simpl.
    split; [reflexivity |]. unfold advance. simpl. now rewrite app_nil_r.
Qed.

(** *** The reasons are told apart *)

Lemma reason_new_not_edit_existing function_arn :
  REASON_NEW_FUNCTION <> reason_edit_existing function_arn.
Proof. unfold REASON_NEW_FUNCTION, reason_edit_existing. simpl. discriminate. Qed.

Lemma reason_new_not_edit_then_pass function_arn :
  REASON_NEW_FUNCTION <> reason_edit_then_pass function_arn.
Proof. unfold REASON_NEW_FUNCTION, reason_edit_then_pass. simpl. discriminate. Qed.

(** *** Membership in the returned list *)

Lemma in_new_function_edges debug w nodes e :
  In e (new_function_edges debug w nodes) <->
  exists s d,
    In s nodes /\ In d nodes /\ new_function_pair debug w s d = true
    /\ e = mkEdge s d REASON_NEW_FUNCTION.
Proof.
  unfold new_function_edges. rewrite in_flat_map. split.
  - intros (s & Hs & H). apply in_flat_map in H as (d & Hd & H).
    destruct (new_function_pair debug w s d) eqn:Hq; [| contradiction].
    destruct H as [<- | []]. now exists s, d.
  - intros (s & d & Hs & Hd & Hq & ->). exists s. split; [exact Hs |].
    apply in_flat_map. exists d. split; [exact Hd |]. rewrite Hq. now left.
Qed.

Lemma new_function_pair_true debug w s d :
  new_function_pair debug w s d = true <->
  passes_gate debug w s d
  /\ pass_role_check debug w s d = Ok true
  /\ create_function_check debug w s = Ok true.
Proof.
  unfold new_function_pair, passes_gate, is_service_match, is_granted.
  rewrite !andb_true_iff.
  destruct (gate_verdict debug w s d) as [[| |] | e1];
    destruct (pass_role_check debug w s d) as [[|] | e2];
    destruct (create_function_check debug w s) as [[|] | e3];
    intuition congruence.
Qed.

(** *** What is written on [output] *)

Lemma finding_line_principals w w1 e :
  principals w1 = principals w -> finding_line w1 e = finding_line w e.
Proof. intros H. unfold finding_line. now rewrite H. Qed.

Lemma findings_silent {A : Type} (m : M A) :
  (forall w, fst (m w) = w) -> findings m.
Proof.
  intros H w. rewrite H. split; [reflexivity |]. exists []. simpl.
  now rewrite app_nil_r.
Qed.

Lemma findings_ret {A : Type} (a : A) : findings (ret a).
Proof. now apply findings_silent. Qed.

Lemma findings_call {A : Type} (r : Result A) : findings (call r).
Proof. now apply findings_silent. Qed.

Lemma findings_attr {A : Type} (field : Node PolicyDocument -> A) node :
  findings (attr field node).
Proof. now apply findings_silent. Qed.

Lemma findings_deref node : findings (deref node).
Proof. now apply findings_silent. Qed.

Lemma findings_found_new_edge e : findings (found_new_edge e).
Proof.
  intros w. rewrite found_new_edge_run. simpl. split; [reflexivity |].
  now exists [e].
Qed.

Lemma findings_bind {A B : Type} (m : M A) (k : A -> M B) :
  findings m -> (forall a, findings (k a)) -> findings (bind m k).
Proof.
  intros Hm Hk w. unfold bind. destruct (Hm w) as [Hp [es Hs]].
  destruct (m w) as [w1 [a | e]]; simpl in *.
  - destruct (Hk a w1) as [Hp' [es' Hs']]. split; [now rewrite Hp' |].
    exists (es ++ es'). rewrite Hs', Hs, map_app, app_assoc. f_equal.
    apply map_ext. intros x. now apply finding_line_principals.
  - split; [exact Hp | now exists es].
Qed.

Lemma findings_for_each {A S : Type} (body : A -> S -> M S) xs :
  (forall x acc, findings (body x acc)) -> forall acc, findings (for_each xs body acc).
Proof.
  intros Hb. induction xs as [| x rest IH]; intros acc; simpl.
  - apply findings_ret.
  - apply findings_bind; auto.
Qed.

Lemma findings_for_break {A : Type} (body : A -> M LoopCtl) xs :
  (forall x, findings (body x)) -> findings (for_break xs body).
Proof.
  intros Hb. induction xs as [| x rest IH]; simpl.
  - apply findings_ret.
  - apply findings_bind; auto. intros [|]; [exact IH | apply findings_ret].
Qed.

Ltac findings_step :=
  first
    [ apply findings_ret | apply findings_call | apply findings_attr
    | apply findings_deref | apply findings_found_new_edge
    | apply findings_for_each; intros
    | apply findings_for_break; intros
    | apply findings_bind; [| intros]
    | match goal with
      | |- findings (if ?b then _ else _) => destruct b
      | |- findings (match ?x with _ => _ end) => destruct x
      | |- findings (let _ := _ in _) => cbv zeta
      end ].

Lemma findings_check_pair debug fl s d res : findings (check_pair debug fl s d res).
Proof.
  unfold check_pair, check_new_function, function_checks, scan_edit_existing,
    scan_edit_then_pass.
  repeat findings_step.
Qed.

(** Every line a pass writes on [output] is the line of an edge it found. *)
Lemma return_edges_sink session nodes debug w :
  exists edges,
    sink (fst (return_edges session nodes debug w)) =
    sink w ++ map (finding_line w) edges.
Proof.
  unfold return_edges, bind at 1. rewrite gather_functions_run.
  set (w1 := mkWorld _ _ _ _).
  destruct (findings_for_each
              (fun s result =>
                 for_each nodes (fun d result => check_pair debug
                   (function_list_of session w) s d result) result)
              nodes
              (fun s acc => findings_for_each _ nodes
                 (fun d acc' => findings_check_pair debug _ s d acc') acc)
              [] w1) as [_ [es Hs]].
  exists es. exact Hs.
Qed.

(** *** The per-function checks, cached *)

Lemma function_checks_step debug s f (acc : list FuncData) w :
  (src <- deref s ;;
   can_change_code <-
     call (local_check_authorization src "lambda:UpdateFunctionCode"
             (FunctionArn f) [] debug) ;;
   can_change_config <-
     call (local_check_authorization src "lambda:UpdateFunctionConfiguration"
             (FunctionArn f) [] debug) ;;
   ret (acc ++ [(f, can_change_code, can_change_config)])) w
  = match update_code_check debug w s f with
    | Raised e => (w, Raised e)
    | Ok b1 =>
        match update_config_check debug w s f with
        | Raised e => (w, Raised e)
        | Ok b2 => (w, Ok (acc ++ [(f, b1, b2)]))
        end
    end.
Proof.
  unfold update_code_check, update_config_check, bind, deref, call, ret.
  destruct (local_check_authorization _ "lambda:UpdateFunctionCode" _ _ _);
    [| reflexivity].
  now destruct (local_check_authorization _ "lambda:UpdateFunctionConfiguration" _ _ _).
Qed.

(** If the checks of a source end without an exception, every one of them
    answered. *)
Lemma function_checks_loop_inv debug s fl acc w w1 out :
  for_each fl
    (fun func func_data =>
       src <- deref s ;;
       can_change_code <-
         call (local_check_authorization src "lambda:UpdateFunctionCode"
                 (FunctionArn func) [] debug) ;;
       can_change_config <-
         call (local_check_authorization src "lambda:UpdateFunctionConfiguration"
                 (FunctionArn func) [] debug) ;;
       ret (func_data ++ [(func, can_change_code, can_change_config)])) acc w
  = (w1, Ok out) ->
  forall f, In f fl ->
    (exists b, update_code_check debug w s f = Ok b)
    /\ (exists b, update_config_check debug w s f = Ok b).
Proof.
  revert acc. induction fl as [| f0 rest IH]; intros acc H f Hin; [contradiction |].
  cbn [for_each] in H. unfold bind at 1 in H. rewrite function_checks_step in H.
  destruct (update_code_check debug w s f0) as [b1 | e1] eqn:H1; [| discriminate].
  destruct (update_config_check debug w s f0) as [b2 | e2] eqn:H2; [| discriminate].
  destruct Hin as [<- | Hin].
  - rewrite H1, H2. eauto.
  - eapply IH; eauto.
Qed.

(** The checks of a source change nothing, and answer the same on every
    world with the same store. *)
Lemma function_checks_pure debug fl s w w1 fd :
  function_checks debug fl s w = (w1, Ok fd) ->
  w1 = w
  /\ forall w', same_store w w' -> function_checks debug fl s w' = (w', Ok fd).
Proof.
  intros H.
  assert (Hall := function_checks_loop_inv debug s fl [] w w1 fd H).
  rewrite (function_checks_run debug s fl w Hall) in H. injection H as <- <-.
  split; [reflexivity |]. intros w' Hs.
  rewrite function_checks_run.
  - now rewrite (func_data_of_same_store debug w w').
  - intros f Hf.
    destruct (update_checks_same_store debug w w' s f Hs) as [<- <-]. now apply Hall.
Qed.

Lemma check_pair_memo_skipped debug fl s d res cache w :
  reaches_gate w s d = false ->
  check_pair_memo debug fl s d (res, cache) w = (w, Ok (res, cache)).
Proof.
  unfold reaches_gate, check_pair_memo. intros H.
  destruct (Nat.eqb s d); [reflexivity |].
  unfold bind at 1, attr at 1.
  destruct (is_admin (principals w s)); [reflexivity |].
  unfold bind at 1, attr at 1.
  simpl in H. rewrite H. reflexivity.
Qed.

Lemma check_pair_memo_reaches debug fl s d res cache w :
  reaches_gate w s d = true ->
  check_pair_memo debug fl s d (res, cache) w =
  match gate_verdict debug w s d with
  | Raised e => (w, Raised e)
  | Ok SERVICE_MATCH =>
      bind (check_new_function debug s d res)
        (fun '(can_pass_role, result) =>
           func_data <-
             match cache with
             | Some func_data => ret func_data
             | None => function_checks debug fl s
             end ;;
           scan_edit_existing s d func_data ;;;
           scan_edit_then_pass s d can_pass_role func_data ;;;
           ret (result, Some func_data)) w
  | Ok _ => (w, Ok (res, cache))
  end.
Proof.
  unfold reaches_gate, check_pair_memo, gate_verdict. intros H.
  apply andb_prop in H as [H Hrole]. apply andb_prop in H as [Hne Hadm].
  destruct (Nat.eqb s d); [discriminate |].
  unfold bind at 1, attr at 1.
  destruct (is_admin (principals w s)); [discriminate |].
  unfold bind at 1, attr at 1. rewrite Hrole. cbn beta iota delta [negb].
  unfold bind at 1, attr at 1. cbn beta iota.
  unfold bind at 1, attr at 1. cbn beta iota.
  unfold bind at 1, call at 1. cbn beta iota.
  destruct (resource_policy_authorization _ _ _ _ _ _ _) as [[| |] | e]; reflexivity.
Qed.

(** The body with a cache does what the body of the method does, and keeps
    its cache right. *)
Lemma check_pair_memo_step debug fl s d res cache w0 w :
  cache_ok debug fl w0 s cache -> same_store w0 w ->
  exists cache',
    cache_ok debug fl w0 s cache'
    /\ check_pair_memo debug fl s d (res, cache) w =
       (fst (check_pair debug fl s d res w),
        match snd (check_pair debug fl s d res w) with
        | Ok r => Ok (r, cache')
        | Raised e => Raised e
        end).
Proof.
  intros Hc Hs. destruct (reaches_gate w s d) eqn:Hr.
  2: { exists cache. split; [exact Hc |].
       now rewrite check_pair_memo_skipped, check_pair_skipped. }
  rewrite (check_pair_memo_reaches debug fl s d res cache w Hr).
  rewrite (check_pair_reaches debug fl s d res w Hr).
  destruct (gate_verdict debug w s d) as [[| |] | e];
    try (exists cache; split; [exact Hc | reflexivity]).
  unfold bind at 1 5 9.
  destruct (check_new_function debug s d res w) as [w1 [[c res1] | e]] eqn:Hn;
    [| now exists cache].
  assert (Hs1 : same_store w0 w1).
  { change w1 with (fst (w1, Ok (c, res1) : Result (bool * list Edge))).
    rewrite <- Hn. apply steady_same_store;
      [apply steady_check_new_function | exact Hs]. }
  destruct cache as [fd |].
  - exists (Some fd). split; [exact Hc |].
    simpl in Hc. unfold bind. rewrite (Hc w1 Hs1). unfold ret at 1.
    destruct (scan_edit_existing s d fd w1) as [w2 [[] | e]]; [| reflexivity].
    now destruct (scan_edit_then_pass s d c fd w2) as [w3 [[] | e]].
  - unfold bind.
    destruct (function_checks debug fl s w1) as [w2 [fd | e]] eqn:Hf;
      [| now exists None].
    exists (Some fd). apply function_checks_pure in Hf as [-> Hf]. split.
    + intros w' Hs'. apply Hf.
      eapply same_store_trans; [apply same_store_sym; exact Hs1 | exact Hs'].
    + destruct (scan_edit_existing s d fd w1) as [w2 [[] | e]]; [| reflexivity].
      now destruct (scan_edit_then_pass s d c fd w2) as [w3 [[] | e]].
Qed.

Lemma memo_inner_loop debug fl s w0 xs :
  forall res cache w,
    cache_ok debug fl w0 s cache -> same_store w0 w ->
    exists cache',
      for_each xs (fun d acc => check_pair_memo debug fl s d acc) (res, cache) w =
      (fst (for_each xs (fun d result => check_pair debug fl s d result) res w),
       match snd (for_each xs (fun d result => check_pair debug fl s d result) res w) with
       | Ok r => Ok (r, cache')
       | Raised e => Raised e
       end).
Proof.
  induction xs as [| d rest IH]; intros res cache w Hc Hs.
  - now exists cache.
  - cbn [for_each]. unfold bind.
    destruct (check_pair_memo_step debug fl s d res cache w0 w Hc Hs)
      as (cache1 & Hc1 & ->).
    destruct (check_pair debug fl s d res w) as [w1 [res1 | e]] eqn:Hp; simpl.
    + apply IH; [exact Hc1 |].
      change w1 with (fst (w1, Ok res1 : Result (list Edge))). rewrite <- Hp.
      apply steady_same_store; [apply steady_check_pair | exact Hs].
    + now exists cache.
Qed.

(* ================================================================== *)
(** ** The claims *)

(** C5: when the trust policy check of a pair answers anything but
    SERVICE_MATCH, the body of that pair appends no edge and writes no
    line, whatever the local checks would say, and no edge from that source
    to that destination is returned. *)
Theorem gate_blocks_every_mechanism session nodes debug w s d v :
  gate_verdict debug w s d = Ok v -> v <> SERVICE_MATCH ->
  (forall function_list result,
      check_pair debug function_list s d result w = (w, Ok result))
  /\ (forall e,
        In e (returned (snd (return_edges session nodes debug w))) ->
        ~ (source e = s /\ destination e = d)).
Proof.
  intros Hv Hne. split.
  - intros fl res. destruct (reaches_gate w s d) eqn:Hr.
    + rewrite (check_pair_reaches debug fl s d res w Hr), Hv.
      destruct v; [reflexivity | reflexivity | contradiction].
    + now apply check_pair_skipped.
  - intros e Hin [Hs Hd].
    destruct (snd (return_edges session nodes debug w)) as [out | e'] eqn:Hout;
      [| contradiction].
    apply return_edges_result in Hout. subst out. simpl in Hin.
    apply in_new_function_edges in Hin as (s' & d' & _ & _ & Hq & ->).
    simpl in Hs, Hd. subst s' d'.
    apply new_function_pair_true in Hq as [[_ Hg] _].
    rewrite Hv in Hg. now injection Hg.
Qed.

(** C6: for a pair of the node list that passes the gates, the pass
    returns the new-function edge of that pair exactly when the pass-role
    check (asked with [iam:PassedToService] set to Lambda) and the
    create-function check on ["*"] both grant. *)
Theorem new_function_edge_iff session nodes debug w s d out :
  In s nodes -> In d nodes -> passes_gate debug w s d ->
  snd (return_edges session nodes debug w) = Ok out ->
  (In (mkEdge s d REASON_NEW_FUNCTION) out <->
   pass_role_check debug w s d = Ok true
   /\ create_function_check debug w s = Ok true).
Proof.
  intros Hs Hd Hg Hout. apply return_edges_result in Hout. subst out.
  rewrite in_new_function_edges. split.
  - intros (s' & d' & _ & _ & Hq & [= <- <-]).
    now apply new_function_pair_true in Hq as (_ & Hpr & Hcf).
  - intros [Hpr Hcf]. exists s, d. repeat split; auto.
    apply new_function_pair_true. auto.
Qed.

(** C7: every edge of the returned list carries the new-function reason
    and comes from a pair that qualified for it; no edge with an
    edit-existing or edit-then-pass reason is returned.  The two scans over
    [func_data] hand nothing back: all they do is write the line of the edge
    built at the function they stop at. *)
Theorem returned_edges_are_new_function_edges session nodes debug w out :
  snd (return_edges session nodes debug w) = Ok out ->
  (forall e, In e out ->
     reason e = REASON_NEW_FUNCTION
     /\ In (source e) nodes /\ In (destination e) nodes
     /\ new_function_pair debug w (source e) (destination e) = true
     /\ (forall function_arn,
           reason e <> reason_edit_existing function_arn
           /\ reason e <> reason_edit_then_pass function_arn))
  /\ (forall s d can_pass_role func_data w',
        (snd (scan_edit_existing s d func_data w') = Ok tt
         /\ advance w' (fst (scan_edit_existing s d func_data w'))
              (scan_lines w' s d reason_edit_existing
                 (edit_existing_target (arn (principals w' d)) func_data)) [])
        /\ (snd (scan_edit_then_pass s d can_pass_role func_data w') = Ok tt
            /\ advance w' (fst (scan_edit_then_pass s d can_pass_role func_data w'))
                 (scan_lines w' s d reason_edit_then_pass
                    (edit_then_pass_target can_pass_role func_data)) [])).
Proof.
  intros Hout. split.
  - intros e Hin. apply return_edges_result in Hout. subst out.
    apply in_new_function_edges in Hin as (s & d & Hs & Hd & Hq & ->). simpl.
    repeat split; auto.
    + apply reason_new_not_edit_existing.
    + apply reason_new_not_edit_then_pass.
  - intros s d cpr fd w'. split.
    + apply scan_edit_existing_run.
    + apply scan_edit_then_pass_run.
Qed.

(** C8: two calls on the same nodes, with the same session, the same
    policy checks and worlds that hold the same Node objects and the same
    inventory end the same way: the same edge list, or the same exception.
    In particular a second call, made after the first has written its
    lines, repeats the outcome of the first. *)
Theorem return_edges_deterministic session nodes debug w1 w2 :
  same_store w1 w2 ->
  snd (return_edges session nodes debug w1) = snd (return_edges session nodes debug w2)
  /\ snd (return_edges session nodes debug (fst (return_edges session nodes debug w1)))
     = snd (return_edges session nodes debug w1).
Proof.
  intros Hs. split.
  - apply steady_outcome; [apply steady_return_edges | exact Hs].
  - symmetry. apply steady_outcome; [apply steady_return_edges |].
    apply steady_same_store; [apply steady_return_edges | apply same_store_refl].
Qed.

(** C9: the per-function checks are asked of the source and the function
    alone, so they can be run once per source.  The variant that computes
    [func_data] at the first pair of a source that needs it and keeps it for
    the later pairs ends every pass as the method does: same edge list or
    same exception, same lines written.  So does the variant that runs the
    checks for each source ahead of its destinations, when those checks
    answer for the sources and functions of the pass. *)
Theorem hoisting_preserves_pass session nodes debug w :
  return_edges_memo session nodes debug w = return_edges session nodes debug w
  /\ ((forall s f,
         In s nodes -> In f (function_list_of session w) ->
         (exists b, update_code_check debug w s f = Ok b)
         /\ (exists b, update_config_check debug w s f = Ok b)) ->
      return_edges_hoisted session nodes debug w = return_edges session nodes debug w).
Proof.
  split.
  - unfold return_edges_memo, return_edges.
    apply bind_ext_on. intros fl w1 Hg.
    rewrite gather_functions_run in Hg. injection Hg as <- <-.
    set (fl := function_list_of session w).
    set (w1 := mkWorld _ _ _ _).
    assert (Hw : same_store w w1) by now split.
    apply (for_each_ext_on _ _ w); [| | exact Hw].
    + intros. apply steady_for_each. intros. apply steady_check_pair.
    + intros s acc w2 _ Hs2. unfold bind.
      destruct (memo_inner_loop debug fl s w nodes acc None w2 I Hs2) as [cache' ->].
      now destruct (for_each nodes _ acc w2) as [w3 [r | e]].
  - intros H. unfold return_edges_hoisted, return_edges.
    apply bind_ext_on. intros fl w1 Hg.
    rewrite gather_functions_run in Hg. injection Hg as <- <-.
    set (fl := function_list_of session w) in *.
    set (w1 := mkWorld _ _ _ _).
    assert (Hw : same_store w w1) by now split.
    apply (for_each_ext_on _ _ w); [| | exact Hw].
    + intros. apply steady_for_each. intros. apply steady_check_pair.
    + intros s acc w2 Hin Hs2.
      assert (Hfd : forall w', same_store w w' ->
                function_checks debug fl s w' = (w', Ok (func_data_of debug w s fl))).
      { intros w' Hs'. rewrite function_checks_run.
        - now rewrite (func_data_of_same_store debug w w').
        - intros f Hf.
          destruct (update_checks_same_store debug w w' s f Hs') as [<- <-].
          now apply H. }
      rewrite (bind_ok _ _ _ _ _ (Hfd w2 Hs2)).
      apply (for_each_ext_on _ _ w); [| | exact Hs2].
      * intros. apply steady_check_pair.
      * intros d acc' w3 _ Hs3.
        exact (check_pair_hoisted_eq debug fl _ s d acc' w w3 Hfd Hs3).
Qed.

(** C10 (amended): a call leaves every Node object and every function
    record of the inventory as it found them; it appends to [output] the
    lines of the edges it found, and it prints one progress line on the
    standard output when there is a session, none otherwise. *)
Theorem return_edges_frame session nodes debug w :
  let w' := fst (return_edges session nodes debug w) in
  principals w' = principals w
  /\ inventory w' = inventory w
  /\ (exists edges, sink w' = sink w ++ map (finding_line w) edges)
  /\ stdout w' = stdout w ++ progress_lines session.
Proof.
  cbv zeta.
  destruct (steady_frame (return_edges session nodes debug) w
              (steady_return_edges session nodes debug))
    as (out & prt & Hp & Hi & _).
  repeat split; auto.
  - apply return_edges_sink.
  - apply return_edges_stdout.
Qed.

End Properties.

(* ================================================================== *)
(** ** The scenarios, run *)

Import Scenario.

(** C1: scenario 3.  Function F runs as RoleR, Alice may update its code
    and may neither pass roles nor create functions.  The pass builds the
    edit-existing edge and writes its line, and returns the empty list: the
    edge is never appended to [result]. *)
Theorem scenario_3_edit_edge_is_not_returned :
  let w := world false alice_edits_f [function_f] in
  let r := run false (Some session) [admin; alice; role_r] w in
  snd r = Ok [] /\ sink (fst r) = [finding_line w edit_f_edge].
Proof. vm_compute. split; reflexivity. Qed.

(** C2: scenario 4.  Alice may pass roles, create functions and update the
    code and configuration of G, which runs as another role.  The pass
    writes two lines, for the new-function edge and for the edge that
    repurposes G, and returns the first edge only. *)
Theorem scenario_4_repurpose_edge_is_not_returned :
  let w := world false alice_repurposes_g [function_g] in
  let r := run false (Some session) [admin; alice; role_r] w in
  snd r = Ok [new_function_edge]
  /\ sink (fst r) = [finding_line w new_function_edge; finding_line w repurpose_g_edge].
Proof. vm_compute. split; reflexivity. Qed.

(** C3, as stated, fails: with no session and no function listed, the pass
    still finds that Alice can create a function running as RoleR. *)
Lemma offline_pass_returns_an_edge :
  snd (run false None [admin; alice; role_r] (world false alice_creates []))
  = Ok [new_function_edge]
  /\ snd (run false None [admin; alice; role_r] (world false alice_creates []))
     <> Ok [].
Proof. vm_compute. split; [reflexivity | discriminate]. Qed.

(** C4, as stated, fails: the pair Alice, RoleR yields an edge; the local
    check raises on Mallory's policy; with Mallory among the nodes the pass
    raises, the edge of Alice is not handed back and [output] holds no line
    about the failure. *)
Lemma failing_pair_aborts_the_pass :
  snd (run true (Some session) [alice; role_r] (world true alice_creates []))
  = Ok [new_function_edge]
  /\ snd (check_pair (imports := oracle true) false [] mallory role_r []
            (world true alice_creates []))
     = Raised "malformed policy document"
  /\ snd (run true (Some session) [alice; role_r; mallory] (world true alice_creates []))
     = Raised "malformed policy document"
  /\ sink (fst (run true (Some session) [alice; role_r; mallory]
                  (world true alice_creates [])))
     = [finding_line (world true alice_creates []) new_function_edge].
Proof. vm_compute. repeat split; reflexivity. Qed.

(** C10, as stated, fails: an online pass leaves a line on the standard
    output, which is not the [output] stream. *)
Lemma online_pass_prints_on_stdout :
  stdout (world false alice_creates []) = []
  /\ stdout (fst (run false (Some session) [admin; alice; role_r]
                    (world false alice_creates [])))
     = ["Searching through Lambda-supported regions for existing functions."]
  /\ sink (fst (run false (Some session) [admin; alice; role_r]
                  (world false alice_creates [])))
     = [finding_line (world false alice_creates []) new_function_edge].
Proof. vm_compute. repeat split; reflexivity. Qed.

(** *** The theorems at work *)

Lemma lenient_oracle_answers : ports_answer (imports := oracle false).
Proof.
  split.
  - intros service account policy action resource context debug.
    simpl. unfold resource_check. destruct policy as [statements |]; [| eauto].
    simpl. destruct (existsb _ _); [eauto |]. destruct (existsb _ _); eauto.
  - intros node action resource context debug. simpl. unfold local_check.
    simpl. eauto.
Qed.

Lemma gate_blocks_witness :
  check_pair (imports := oracle false) false [] alice role_t []
    (world false alice_creates [])
  = (world false alice_creates [], Ok [])
  /\ ~ In (mkEdge alice role_t REASON_NEW_FUNCTION)
        (returned (snd (run false (Some session) [admin; alice; role_r; role_t]
                          (world false alice_creates [])))).
Proof.
  destruct (gate_blocks_every_mechanism (imports := oracle false) (Some session)
              [admin; alice; role_r; role_t] false (world false alice_creates [])
              alice role_t EXPLICIT_DENY) as [H1 H2].
  - vm_compute. reflexivity.
  - discriminate.
  - split; [apply H1 |]. intros Hin. apply (H2 _ Hin). split; reflexivity.
Defined.

Lemma new_function_edge_witness :
  In new_function_edge [new_function_edge] <->
  pass_role_check (imports := oracle false) false (world false alice_creates [])
    alice role_r = Ok true
  /\ create_function_check (imports := oracle false) false
       (world false alice_creates []) alice = Ok true.
Proof.
  apply (new_function_edge_iff (imports := oracle false) (Some session)
           [admin; alice; role_r] false (world false alice_creates [])
           alice role_r [new_function_edge]).
  - simpl. auto.
  - simpl. auto.
  - split; vm_compute; reflexivity.
  - vm_compute. reflexivity.
Defined.

Lemma returned_edges_witness :
  reason new_function_edge = REASON_NEW_FUNCTION
  /\ reason new_function_edge <> reason_edit_then_pass function_g_arn.
Proof.
  destruct (returned_edges_are_new_function_edges (imports := oracle false)
              (Some session) [admin; alice; role_r] false
              (world false alice_repurposes_g [function_g]) [new_function_edge])
    as [H _].
  - vm_compute. reflexivity.
  - destruct (H new_function_edge (or_introl eq_refl)) as (Hr & _ & _ & _ & Hd).
    split; [exact Hr | apply Hd].
Defined.

Lemma deterministic_witness :
  snd (run false (Some session) [admin; alice; role_r] (world false alice_creates []))
  = snd (run false (Some session) [admin; alice; role_r]
           (mkWorld (imports := oracle false) (account alice_creates) (deployed [])
              ["text written earlier"] ["line printed earlier"])).
Proof.
  apply (return_edges_deterministic (imports := oracle false)).
  split; reflexivity.
Defined.

Lemma hoisting_witness :
  return_edges_hoisted (imports := oracle true) (Some session)
    [admin; alice; role_r] false (world true alice_repurposes_g [function_g; function_f])
  = return_edges (imports := oracle true) (Some session)
      [admin; alice; role_r] false (world true alice_repurposes_g [function_g; function_f]).
Proof.
  apply (hoisting_preserves_pass (imports := oracle true)).
  intros s f Hs Hf.
  assert (Hs' : s = admin \/ s = alice \/ s = role_r) by (simpl in Hs; intuition).
  destruct Hs' as [-> | [-> | ->]]; split; eexists; reflexivity.
Defined.

(** The checks run ahead of the destinations are also run for a source all
    of whose pairs are skipped: with no role among the nodes the method
    asks nothing about Mallory and returns, while the ahead-of-time variant
    raises on her policy.  The cached variant follows the method. *)
Example checks_ahead_may_raise :
  snd (return_edges (imports := oracle true) (Some session) [mallory; alice] false
         (world true alice_creates [function_f])) = Ok []
  /\ snd (return_edges_memo (imports := oracle true) (Some session) [mallory; alice] false
            (world true alice_creates [function_f])) = Ok []
  /\ snd (return_edges_hoisted (imports := oracle true) (Some session) [mallory; alice]
            false (world true alice_creates [function_f]))
     = Raised "malformed policy document".
Proof. vm_compute. repeat split; reflexivity. Qed.

(* ================================================================== *)
(** ** Further properties of the pass *)

From Stdlib Require Import Permutation.

Section Coverage.

Context {imports : Imports}.

(** *** Helpers *)

Lemma for_each_idle {A S : Type} (body : A -> S -> M S) (xs : list A) acc w :
  (forall x acc', In x xs -> body x acc' w = (w, Ok acc')) ->
  for_each xs body acc w = (w, Ok acc).
Proof.
  induction xs as [| x rest IH]; intros H; [reflexivity |].
  simpl. unfold bind. rewrite (H x acc (or_introl eq_refl)).
  apply IH. intros y acc' Hy. apply H. now right.
Qed.

Lemma new_function_pair_principals debug w1 w2 s d :
  (forall node, principals w1 node = principals w2 node) ->
  new_function_pair debug w1 s d = new_function_pair debug w2 s d.
Proof.
  intros Hp.
  unfold new_function_pair, reaches_gate, gate_verdict, pass_role_check,
    create_function_check.
  now rewrite !Hp.
Qed.

Lemma new_function_edges_principals debug w1 w2 nodes :
  (forall node, principals w1 node = principals w2 node) ->
  new_function_edges debug w1 nodes = new_function_edges debug w2 nodes.
Proof.
  intros Hp. unfold new_function_edges.
  apply flat_map_ext. intros s. apply flat_map_ext. intros d.
  now rewrite (new_function_pair_principals debug w1 w2 s d Hp).
Qed.

Lemma prefix_split needle hay :
  String.prefix needle hay = true <-> exists post, hay = (needle ++ post)%string.
Proof.
  revert hay. induction needle as [| c needle IH]; intros hay.
  - destruct hay; simpl; split; eauto.
  - destruct hay as [| c' hay]; simpl.
    + split; [discriminate | intros [post H]; discriminate].
    + destruct (ascii_dec c c') as [<- | Hne].
      * rewrite IH. split; intros [post H]; exists post; [now rewrite H | now injection H].
      * split; [discriminate | intros [post H]; congruence].
Qed.

Lemma NoDup_flat_map {A B : Type} (f : A -> list B) (l : list A) :
  NoDup l ->
  (forall x, In x l -> NoDup (f x)) ->
  (forall x y b, In x l -> In y l -> In b (f x) -> In b (f y) -> x = y) ->
  NoDup (flat_map f l).
Proof.
  induction l as [| a l IH]; intros Hl Hf Hinj; simpl; [constructor |].
  inversion Hl as [| ? ? Hnotin Hl']; subst.
  apply NoDup_app.
  - apply Hf. now left.
  - apply IH; [exact Hl' | intros; apply Hf; now right |].
    intros x y b Hx Hy. apply Hinj; now right.
  - intros b Hb Hb'. apply in_flat_map in Hb' as (y & Hy & Hby).
    assert (a = y) by (apply (Hinj a y b); auto; [now left | now right]).
    subst y. contradiction.
Qed.

(** *** The returned list *)

(** X3: every returned edge joins two different nodes of the list, its
    source is not an admin, the arn of its destination has [:role/] in it,
    the trust policy check of the pair answered SERVICE_MATCH and both local
    checks granted. *)
Theorem returned_edges_endpoints session nodes debug w out e :
  snd (return_edges session nodes debug w) = Ok out -> In e out ->
  In (source e) nodes /\ In (destination e) nodes
  /\ source e <> destination e
  /\ is_admin (principals w (source e)) = false
  /\ contains ":role/" (arn (principals w (destination e))) = true
  /\ gate_verdict debug w (source e) (destination e) = Ok SERVICE_MATCH
  /\ pass_role_check debug w (source e) (destination e) = Ok true
  /\ create_function_check debug w (source e) = Ok true.
Proof.
  intros Hout Hin. apply return_edges_result in Hout. subst out.
  apply in_new_function_edges in Hin as (s & d & Hs & Hd & Hq & ->). simpl.
  apply new_function_pair_true in Hq as ([Hr Hg] & Hpr & Hcf).
  unfold reaches_gate in Hr.
  apply andb_prop in Hr as [Hr Hrole]. apply andb_prop in Hr as [Hne Hadm].
  repeat split; auto.
  - intros ->. now rewrite Nat.eqb_refl in Hne.
  - now destruct (is_admin (principals w s)).
Qed.

(** X4: a pass that returns hands back the new-function edges of the
    qualifying pairs in the order of the two loops, by source and then by
    destination as they stand in the node list, one edge for each occurrence
    of a qualifying pair. *)
Theorem returned_list_in_loop_order session nodes debug w out :
  snd (return_edges session nodes debug w) = Ok out ->
  out = flat_map
          (fun s =>
             flat_map
               (fun d =>
                  if new_function_pair debug w s d
                  then [mkEdge s d REASON_NEW_FUNCTION] else [])
               nodes)
          nodes.
Proof. intros H. now apply return_edges_result in H. Qed.

(** X5: when no node stands twice in the list, no edge stands twice in the
    returned list. *)
Theorem returned_edges_distinct session nodes debug w out :
  NoDup nodes ->
  snd (return_edges session nodes debug w) = Ok out ->
  NoDup out.
Proof.
  intros Hnd Hout. apply return_edges_result in Hout. subst out.
  unfold new_function_edges. apply NoDup_flat_map; [exact Hnd | |].
  - intros s _. apply NoDup_flat_map; [exact Hnd | |].
    + intros d _. destruct (new_function_pair debug w s d); repeat constructor.
      intros [].
    + intros d d' e _ _ H1 H2.
      destruct (new_function_pair debug w s d); [| contradiction].
      destruct (new_function_pair debug w s d'); [| contradiction].
      destruct H1 as [<- | []]. destruct H2 as [H2 | []]. congruence.
  - intros s s' e _ _ H1 H2.
    apply in_flat_map in H1 as (d & _ & H1). apply in_flat_map in H2 as (d' & _ & H2).
    destruct (new_function_pair debug w s d); [| contradiction].
    destruct (new_function_pair debug w s' d'); [| contradiction].
    destruct H1 as [<- | []]. destruct H2 as [H2 | []]. congruence.
Qed.

(** X12: the returned list owes nothing to the session or to the functions
    deployed: two passes over the same nodes that both return, with or
    without a session and whatever the inventories hold, return the same
    list. *)
Theorem returned_edges_ignore_inventory session1 session2 nodes debug w1 w2 out1 out2 :
  (forall node, principals w1 node = principals w2 node) ->
  snd (return_edges session1 nodes debug w1) = Ok out1 ->
  snd (return_edges session2 nodes debug w2) = Ok out2 ->
  out1 = out2.
Proof.
  intros Hp H1 H2. apply return_edges_result in H1, H2. subst out1 out2.
  now apply new_function_edges_principals.
Qed.

(** X14: a pass over more nodes finds at least the edges of a pass over
    fewer: when every node of [nodes] is in [nodes'] and both passes return,
    every edge returned for [nodes] is returned for [nodes']. *)
Theorem returned_edges_grow_with_nodes session nodes nodes' debug w out out' :
  incl nodes nodes' ->
  snd (return_edges session nodes debug w) = Ok out ->
  snd (return_edges session nodes' debug w) = Ok out' ->
  incl out out'.
Proof.
  intros Hincl H1 H2 e He. apply return_edges_result in H1, H2. subst out out'.
  apply in_new_function_edges in He as (s & d & Hs & Hd & Hq & ->).
  apply in_new_function_edges. exists s, d. auto.
Qed.

(** *** The role test *)

(** X15: the test of source line 52, [':role/' not in arn], is substring
    search: [contains needle hay] holds exactly when [hay] is some text,
    then [needle], then some text. *)
Theorem contains_iff_substring needle hay :
  contains needle hay = true <->
  exists pre post, hay = (pre ++ needle ++ post)%string.
Proof.
  induction hay as [| c hay IH].
  - cbn [contains]. rewrite orb_false_r, prefix_split. split.
    + intros [post H]. now exists EmptyString, post.
    + intros (pre & post & H). destruct pre; simpl in H; [now exists post | discriminate].
  - cbn [contains]. rewrite orb_true_iff, prefix_split, IH. split.
    + intros [[post H] | (pre & post & H)].
      * now exists EmptyString, post.
      * exists (String c pre), post. simpl. now rewrite H.
    + intros (pre & post & H). destruct pre as [| c' pre]; simpl in H.
      * left. now exists post.
      * right. injection H as _ H. now exists pre, post.
Qed.

(** *** Exceptions *)

Lemma for_each_raised_inv {A S : Type} (body : A -> S -> M S) (w0 : World) :
  (forall x acc, steady (body x acc)) ->
  forall xs acc w e,
    same_store w0 w -> snd (for_each xs body acc w) = Raised e ->
    exists x acc' w',
      In x xs /\ same_store w0 w' /\ snd (body x acc' w') = Raised e.
Proof.
  intros Hst. induction xs as [| x rest IH]; intros acc w e Hs H; [discriminate |].
  simpl in H. unfold bind in H.
  destruct (body x acc w) as [w1 [acc1 | e1]] eqn:Hx.
  - assert (Hs1 : same_store w0 w1).
    { change w1 with (fst (w1, Ok acc1 : Result S)). rewrite <- Hx.
      now apply steady_same_store. }
    destruct (IH acc1 w1 e Hs1 H) as (y & acc' & w' & Hy & Hs' & Hr).
    exists y, acc', w'. split; [now right | split; assumption].
  - exists x, acc, w. rewrite Hx. split; [now left | split; assumption].
Qed.

(** A pass that raises does so in the body of one of its pairs. *)
Lemma return_edges_raised_inv session nodes debug w e :
  snd (return_edges session nodes debug w) = Raised e ->
  exists s d,
    In s nodes /\ In d nodes
    /\ snd (check_pair debug (function_list_of session w) s d [] w) = Raised e.
Proof.
  unfold return_edges, bind at 1. rewrite gather_functions_run.
  set (w1 := mkWorld _ _ _ _). intros H.
  assert (Hw : same_store w w1) by now split.
  apply (for_each_raised_inv _ w) in H as (s & acc & w2 & Hs & Hs2 & H);
    [| intros; apply steady_for_each; intros; apply steady_check_pair | exact Hw].
  apply (for_each_raised_inv _ w) in H as (d & acc' & w3 & Hd & Hs3 & H);
    [| intros; apply steady_check_pair | exact Hs2].
  exists s, d. repeat split; auto.
  rewrite check_pair_acc in H. simpl in H.
  rewrite (steady_outcome _ w w3 (steady_check_pair _ _ _ _ _) Hs3).
  now destruct (snd (check_pair debug (function_list_of session w) s d [] w3)).
Qed.

Lemma check_new_function_raised_inv debug s d res w e :
  snd (check_new_function debug s d res w) = Raised e ->
  pass_role_check debug w s d = Raised e
  \/ (pass_role_check debug w s d = Ok true
      /\ create_function_check debug w s = Raised e).
Proof.
  unfold check_new_function, pass_role_check, create_function_check, bind, deref,
    attr, call, ret, found_new_edge, output_write, bind, deref.
  destruct (local_check_authorization _ "iam:PassRole" _ _ _) as [[|] | e1]; simpl;
    [| discriminate | intros [= ->]; now left].
  destruct (local_check_authorization _ "lambda:CreateFunction" _ _ _) as [[|] | e2];
    simpl; try discriminate. intros [= ->]. now right.
Qed.

Lemma function_checks_loop_raised debug s fl acc w e :
  snd (for_each fl
         (fun func func_data =>
            src <- deref s ;;
            can_change_code <-
              call (local_check_authorization src "lambda:UpdateFunctionCode"
                      (FunctionArn func) [] debug) ;;
            can_change_config <-
              call (local_check_authorization src "lambda:UpdateFunctionConfiguration"
                      (FunctionArn func) [] debug) ;;
            ret (func_data ++ [(func, can_change_code, can_change_config)])) acc w)
  = Raised e ->
  exists f,
    In f fl
    /\ (update_code_check debug w s f = Raised e
        \/ update_config_check debug w s f = Raised e).
Proof.
  revert acc. induction fl as [| f0 rest IH]; intros acc H; [discriminate |].
  cbn [for_each] in H. unfold bind at 1 in H. rewrite function_checks_step in H.
  destruct (update_code_check debug w s f0) as [b1 | e1] eqn:H1.
  - destruct (update_config_check debug w s f0) as [b2 | e2] eqn:H2.
    + destruct (IH _ H) as (f & Hf & Hr). exists f. split; [now right | exact Hr].
    + simpl in H. injection H as ->. exists f0. split; [now left | now right].
  - simpl in H. injection H as ->. exists f0. split; [now left | now left].
Qed.

(** The body of a pair raises only when one of the policy checks it asks
    raises. *)
Lemma check_pair_raised_inv debug fl s d res w e :
  snd (check_pair debug fl s d res w) = Raised e ->
  reaches_gate w s d = true /\ policy_check_raised debug w fl s d e.
Proof.
  unfold policy_check_raised. destruct (reaches_gate w s d) eqn:Hr.
  2: { rewrite (check_pair_skipped debug fl s d res w Hr). discriminate. }
  rewrite (check_pair_reaches debug fl s d res w Hr). intros H. split; [reflexivity |].
  destruct (gate_verdict debug w s d) as [[| |] | e1]; try discriminate.
  2: { left. simpl in H. now injection H as ->. }
  right. split; [reflexivity |].
  unfold bind at 1 in H.
  destruct (check_new_function debug s d res w) as [w1 [[c res1] | e1]] eqn:Hn.
  - assert (Hs1 : same_store w w1).
    { change w1 with (fst (w1, Ok (c, res1) : Result (bool * list Edge))).
      rewrite <- Hn. apply steady_same_store;
        [apply steady_check_new_function | apply same_store_refl]. }
    right. right. unfold bind at 1 in H.
    destruct (function_checks debug fl s w1) as [w2 [fd | e2]] eqn:Hf.
    + unfold bind in H.
      destruct (scan_edit_existing_run s d fd w2) as [H1 _].
      destruct (scan_edit_existing s d fd w2) as [w3 [[] | e3]]; [| discriminate].
      destruct (scan_edit_then_pass_run s d c fd w3) as [H2 _].
      destruct (scan_edit_then_pass s d c fd w3) as [w4 [[] | e4]]; discriminate.
    + simpl in H. injection H as ->.
      apply (f_equal snd) in Hf. simpl in Hf.
      apply function_checks_loop_raised in Hf as (f & Hin & Hr').
      exists f. split; [exact Hin |].
      now destruct (update_checks_same_store debug w w1 s f Hs1) as [-> ->].
  - simpl in H. injection H as ->.
    apply (f_equal snd) in Hn. simpl in Hn.
    apply check_new_function_raised_inv in Hn. tauto.
Qed.

(** *** The order of the nodes *)

Lemma flat_map_pointwise_perm {A B : Type} (f g : A -> list B) (l : list A) :
  (forall x, Permutation (f x) (g x)) ->
  Permutation (flat_map f l) (flat_map g l).
Proof.
  intros H. induction l as [| a l IH]; simpl; [constructor |].
  now apply Permutation_app.
Qed.

(** X13: the order of the nodes is of no account: if the pass over a node
    list returns, the pass over any rearrangement of the list returns too,
    and returns the same edges, rearranged. *)
Theorem returned_edges_permute session nodes nodes' debug w out :
  Permutation nodes nodes' ->
  snd (return_edges session nodes debug w) = Ok out ->
  exists out',
    snd (return_edges session nodes' debug w) = Ok out' /\ Permutation out out'.
Proof.
  intros Hperm Hout.
  destruct (snd (return_edges session nodes' debug w)) as [out' | e] eqn:Hout'.
  - exists out'. split; [reflexivity |].
    apply return_edges_result in Hout, Hout'. subst out out'.
    unfold new_function_edges.
    eapply Permutation_trans.
    + apply Permutation_flat_map. exact Hperm.
    + apply flat_map_pointwise_perm. intros s.
      apply Permutation_flat_map. exact Hperm.
  - apply return_edges_raised_inv in Hout' as (s & d & Hs & Hd & Hr).
    apply (Permutation_in _ (Permutation_sym Hperm)) in Hs, Hd.
    destruct (return_edges_raises session nodes debug w s d e Hs Hd Hr) as [e' He'].
    rewrite He' in Hout. discriminate.
Qed.

(** *** What the body of a pair writes *)

Lemma scan_lines_principals w w1 s d why target :
  principals w1 = principals w ->
  scan_lines w1 s d why target = scan_lines w s d why target.
Proof.
  intros H. unfold scan_lines. destruct target as [[[f cc] cf] |]; [| reflexivity].
  now rewrite (finding_line_principals w w1).
Qed.

Lemma scan_lines_length w s d why target : List.length (scan_lines w s d why target) <= 1.
Proof. unfold scan_lines. destruct target as [[[f cc] cf] |]; simpl; lia. Qed.

Lemma check_new_function_run debug s d res w c :
  pass_role_check debug w s d = Ok c ->
  (c = true -> exists b, create_function_check debug w s = Ok b) ->
  snd (check_new_function debug s d res w) =
    Ok (c, res ++ (if c && is_granted (create_function_check debug w s)
                   then [mkEdge s d REASON_NEW_FUNCTION] else []))
  /\ advance w (fst (check_new_function debug s d res w))
       (if c && is_granted (create_function_check debug w s)
        then [finding_line w (mkEdge s d REASON_NEW_FUNCTION)] else []) [].
Proof.
  unfold check_new_function, pass_role_check, create_function_check, bind, deref,
    attr, call, ret, found_new_edge, output_write, bind, deref, finding_line, advance.
  intros H1 H2. rewrite H1. destruct c; simpl.
  - destruct (H2 eq_refl) as [b Hb]. rewrite Hb. destruct b; simpl;
      rewrite ?app_nil_r; auto.
  - rewrite ?app_nil_r; auto.
Qed.

Lemma check_pair_passing_run debug fl s d res w c :
  passes_gate debug w s d ->
  pass_role_check debug w s d = Ok c ->
  (c = true -> exists b, create_function_check debug w s = Ok b) ->
  (forall f, In f fl ->
     (exists b, update_code_check debug w s f = Ok b)
     /\ (exists b, update_config_check debug w s f = Ok b)) ->
  snd (check_pair debug fl s d res w) =
    Ok (res ++ if new_function_pair debug w s d
               then [mkEdge s d REASON_NEW_FUNCTION] else [])
  /\ advance w (fst (check_pair debug fl s d res w)) (pair_lines debug w fl s d) []
  /\ List.length (pair_lines debug w fl s d) <= 3.
Proof.
  intros [Hr Hg] Hpr Hcf Hfl.
  assert (Hq : new_function_pair debug w s d =
               c && is_granted (create_function_check debug w s)).
  { unfold new_function_pair. rewrite Hr, Hg, Hpr. now destruct c. }
  split; [| split].
  3: { unfold pair_lines. cbv zeta. rewrite !length_app.
       pose proof (scan_lines_length w s d reason_edit_existing
                     (edit_existing_target (arn (principals w d))
                        (func_data_of debug w s fl))).
       pose proof (scan_lines_length w s d reason_edit_then_pass
                     (edit_then_pass_target (answer_of (pass_role_check debug w s d))
                        (func_data_of debug w s fl))).
       destruct (new_function_pair debug w s d); simpl; lia. }
  all: rewrite (check_pair_reaches debug fl s d res w Hr), Hg; unfold bind at 1;
    destruct (check_new_function_run debug s d res w c Hpr Hcf) as [Hn1 Hn2];
    destruct (check_new_function debug s d res w) as [w1 r1]; simpl in Hn1, Hn2;
    subst r1;
    assert (Hs1 : same_store w w1) by (eapply advance_same_store; exact Hn2);
    assert (Hp1 : principals w1 = principals w) by apply Hn2;
    assert (Hf : function_checks debug fl s w1
                 = (w1, Ok (func_data_of debug w s fl)))
      by (rewrite function_checks_run;
          [now rewrite (func_data_of_same_store debug w w1)
          | intros f Hin;
            destruct (update_checks_same_store debug w w1 s f Hs1) as [<- <-];
            now apply Hfl]);
    unfold bind at 1; rewrite Hf; unfold bind at 1;
    destruct (scan_edit_existing_run s d (func_data_of debug w s fl) w1) as [Hb1 Hb2];
    destruct (scan_edit_existing s d (func_data_of debug w s fl) w1) as [w2 r2];
    simpl in Hb1, Hb2; subst r2; unfold bind at 1;
    destruct (scan_edit_then_pass_run s d c (func_data_of debug w s fl) w2) as [Hc1 Hc2];
    destruct (scan_edit_then_pass s d c (func_data_of debug w s fl) w2) as [w3 r3];
    simpl in Hc1, Hc2; subst r3; simpl.
  - now rewrite Hq.
  - assert (Hp2 : principals w2 = principals w)
      by (destruct Hb2 as [-> _]; exact Hp1).
    rewrite (scan_lines_principals w w1) in Hb2 by exact Hp1.
    rewrite Hp1 in Hb2.
    rewrite (scan_lines_principals w w2) in Hc2 by exact Hp2.
    unfold pair_lines. cbv zeta. rewrite Hq, Hpr. simpl answer_of.
    pose proof (advance_trans _ _ _ _ _ _ _ Hn2 (advance_trans _ _ _ _ _ _ _ Hb2 Hc2))
      as Hadv.
    exact Hadv.
Qed.

(** X8: for a pair that passes the gates and whose checks answer, the body
    ends by appending the new-function edge when both local checks grant and
    nothing otherwise; it writes at most three lines, in this order: the
    new-function line, the line of the first listed function that runs as
    the destination and whose code the source may update, and the line of
    the first listed function whose configuration and code the source may
    update when it may also pass the role. *)
Theorem pair_body_complete debug fl s d res w c :
  passes_gate debug w s d ->
  pass_role_check debug w s d = Ok c ->
  (c = true -> exists b, create_function_check debug w s = Ok b) ->
  (forall f, In f fl ->
     (exists b, update_code_check debug w s f = Ok b)
     /\ (exists b, update_config_check debug w s f = Ok b)) ->
  snd (check_pair debug fl s d res w) =
    Ok (res ++ if new_function_pair debug w s d
               then [mkEdge s d REASON_NEW_FUNCTION] else [])
  /\ advance w (fst (check_pair debug fl s d res w)) (pair_lines debug w fl s d) []
  /\ List.length (pair_lines debug w fl s d) <= 3.
Proof. apply check_pair_passing_run. Qed.

(** *** Every returned edge is on [output] *)

Lemma bind_inv {A B : Type} (m : M A) (k : A -> M B) w w' b :
  bind m k w = (w', Ok b) ->
  exists w1 a, m w = (w1, Ok a) /\ k a w1 = (w', Ok b).
Proof.
  unfold bind. destruct (m w) as [w1 [a | e]]; intros H; [| discriminate].
  now exists w1, a.
Qed.

Lemma steady_sink_grows {A : Type} (m : M A) w line :
  steady m -> In line (sink w) -> In line (sink (fst (m w))).
Proof.
  intros Hst Hin. destruct (steady_frame m w Hst) as (out & prt & _ & _ & Hs & _).
  rewrite Hs. apply in_or_app. now left.
Qed.

Lemma steady_principals {A : Type} (m : M A) w :
  steady m -> principals (fst (m w)) = principals w.
Proof.
  intros Hst. now destruct (steady_frame m w Hst) as (out & prt & Hp & _).
Qed.

Lemma check_new_function_logged debug s d res w w1 c res1 :
  check_new_function debug s d res w = (w1, Ok (c, res1)) ->
  forall e, In e res1 -> In e res \/ In (finding_line w e) (sink w1).
Proof.
  unfold check_new_function, bind, deref, attr, call, ret, found_new_edge,
    output_write, bind, deref, finding_line.
  destruct (local_check_authorization _ "iam:PassRole" _ _ _) as [[|] | e1]; simpl;
    [| intros [= <- <- <-]; auto | discriminate].
  destruct (local_check_authorization _ "lambda:CreateFunction" _ _ _) as [[|] | e2];
    simpl; [| intros [= <- <- <-]; auto | discriminate].
  intros [= <- <- <-] e He. apply in_app_or in He as [He | [<- | []]]; [now left |].
  right. simpl. apply in_or_app. right. now left.
Qed.

Lemma check_pair_logged debug fl s d res w w' out :
  check_pair debug fl s d res w = (w', Ok out) ->
  forall e, In e out -> In e res \/ In (finding_line w e) (sink w').
Proof.
  destruct (reaches_gate w s d) eqn:Hr.
  2: { rewrite (check_pair_skipped debug fl s d res w Hr). intros [= <- <-]. auto. }
  rewrite (check_pair_reaches debug fl s d res w Hr).
  destruct (gate_verdict debug w s d) as [[| |] | e1];
    try (intros [= <- <-]; now auto); try discriminate.
  intros H e He. apply bind_inv in H as (w1 & [c res1] & Hn & H).
  set (rest := (func_data <- function_checks debug fl s ;;
                scan_edit_existing s d func_data ;;;
                scan_edit_then_pass s d c func_data ;;;
                ret res1)) in H.
  assert (Hst : steady rest).
  { apply steady_bind; [apply steady_function_checks | intros fd].
    apply steady_bind; [apply steady_scan_edit_existing | intros _].
    apply steady_bind; [apply steady_scan_edit_then_pass | intros _].
    apply steady_ret. }
  assert (Hout : out = res1).
  { apply (f_equal snd) in H. simpl in H. unfold rest in H.
    apply bind_ok_inv in H as (w2 & fd & _ & H).
    apply bind_ok_inv in H as (w3 & [] & _ & H).
    apply bind_ok_inv in H as (w4 & [] & _ & H).
    simpl in H. now injection H. }
  subst out.
  destruct (check_new_function_logged debug s d res w w1 c res1 Hn e He) as [Hl | Hl];
    [now left | right].
  change w' with (fst (w', Ok res1 : Result (list Edge))). rewrite <- H.
  now apply steady_sink_grows.
Qed.

(** A loop keeps what its body keeps. *)
Lemma for_each_keeps {A S : Type} (Inv : S -> World -> Prop) (body : A -> S -> M S) :
  (forall x acc w acc' w', Inv acc w -> body x acc w = (w', Ok acc') -> Inv acc' w') ->
  forall xs acc w acc' w',
    Inv acc w -> for_each xs body acc w = (w', Ok acc') -> Inv acc' w'.
Proof.
  intros Hb. induction xs as [| x rest IH]; intros acc w acc' w' Hi H.
  - simpl in H. unfold ret in H. now injection H as <- <-.
  - simpl in H. apply bind_inv in H as (w1 & acc1 & Hx & H).
    eapply IH; [| exact H]. eapply Hb; eauto.
Qed.

(** X10: every edge a pass returns has its line on [output]: the text
    ['Found new edge: '], the description of the edge and a line feed were
    written during the pass. *)
Theorem returned_edges_are_logged session nodes debug w out :
  snd (return_edges session nodes debug w) = Ok out ->
  forall e, In e out ->
    In (finding_line w e) (sink (fst (return_edges session nodes debug w))).
Proof.
  intros Hout e He.
  destruct (return_edges session nodes debug w) as [w' r] eqn:Hrun.
  simpl in Hout. subst r. simpl. revert e He.
  unfold return_edges in Hrun. apply bind_inv in Hrun as (w1 & fl & Hg & Hrun).
  rewrite gather_functions_run in Hg. injection Hg as <- <-.
  set (w1 := mkWorld _ _ _ _) in Hrun.
  set (Inv := fun (acc : list Edge) (v : World) =>
                principals v = principals w
                /\ forall e, In e acc -> In (finding_line w e) (sink v)).
  assert (Hpair : forall s d acc v acc' v',
             Inv acc v ->
             check_pair debug (function_list_of session w) s d acc v = (v', Ok acc') ->
             Inv acc' v').
  { intros s d acc v acc' v' [Hp Hl] Hc.
    assert (Hv : v' = fst (check_pair debug (function_list_of session w) s d acc v))
      by now rewrite Hc.
    split.
    - rewrite Hv, steady_principals by apply steady_check_pair. exact Hp.
    - intros e He.
      destruct (check_pair_logged _ _ _ _ _ _ _ _ Hc e He) as [Hin | Hin].
      + rewrite Hv. apply steady_sink_grows; [apply steady_check_pair | now apply Hl].
      + now rewrite (finding_line_principals w v e Hp) in Hin. }
  assert (Hfinal : Inv out w').
  { apply (for_each_keeps Inv _
             (fun s acc v acc' v' Hi Hc =>
                for_each_keeps Inv _ (Hpair s) nodes acc v acc' v' Hi Hc)
             nodes [] w1 out w'); [| exact Hrun].
    split; [reflexivity | intros e []]. }
  apply Hfinal.
Qed.

(** *** How many edges *)

Lemma flat_map_if_length {A B : Type} (P : A -> bool) (x : A -> B) (l : list A) :
  List.length (flat_map (fun a => if P a then [x a] else []) l) <= List.length l.
Proof.
  induction l as [| a l IH]; simpl; [lia |].
  rewrite length_app. destruct (P a); simpl; lia.
Qed.

Lemma flat_map_if_length_less {A B : Type} (P : A -> bool) (x : A -> B) (l : list A) a0 :
  In a0 l -> P a0 = false ->
  List.length (flat_map (fun a => if P a then [x a] else []) l) <= List.length l - 1.
Proof.
  intros Hin Hp. induction l as [| a l IH]; [contradiction |].
  simpl. rewrite length_app. destruct Hin as [-> | Hin].
  - rewrite Hp. simpl. pose proof (flat_map_if_length P x l). lia.
  - specialize (IH Hin). destruct l as [| b l]; [contradiction |].
    destruct (P a); simpl in *; lia.
Qed.

Lemma list_sum_bound {A : Type} (g : A -> nat) (k : nat) (l : list A) :
  (forall a, In a l -> g a <= k) -> list_sum (map g l) <= List.length l * k.
Proof.
  induction l as [| a l IH]; intros H; simpl; [lia |].
  pose proof (H a (or_introl eq_refl)).
  assert (list_sum (map g l) <= List.length l * k) by (apply IH; intros; apply H; now right).
  lia.
Qed.

(** X6: a pass over [n] nodes returns at most [n * (n - 1)] edges: at most
    one for each pair of places of the list, none for a node and itself. *)
Theorem returned_edges_count session nodes debug w out :
  snd (return_edges session nodes debug w) = Ok out ->
  List.length out <= List.length nodes * (List.length nodes - 1).
Proof.
  intros Hout. apply return_edges_result in Hout. subst out.
  unfold new_function_edges. rewrite length_flat_map.
  apply list_sum_bound. intros s Hs.
  apply (flat_map_if_length_less (new_function_pair debug w s)
           (fun d => mkEdge s d REASON_NEW_FUNCTION) nodes s Hs).
  unfold new_function_pair, reaches_gate. now rewrite Nat.eqb_refl.
Qed.

End Coverage.

(* ================================================================== *)
(** ** A pass, pair by pair *)

Section PassOutcomes.

Context {imports : Imports}.

(** *** The listing *)

(** When the listing returns, it returns the functions of the pages and
    leaves a world that differs from the first by the progress line. *)
Lemma gather_functions_returned session w w1 fl :
  gather_functions session w = (w1, Ok fl) ->
  fl = function_list_of session w
  /\ principals w1 = principals w /\ inventory w1 = inventory w
  /\ sink w1 = sink w /\ same_store w w1.
Proof.
  rewrite gather_functions_run. intros [= <- <-]. simpl.
  repeat split; reflexivity.
Qed.

Lemma gather_functions_answered session w fl :
  snd (gather_functions session w) = Ok fl ->
  exists w1, gather_functions session w = (w1, Ok fl).
Proof.
  destruct (gather_functions session w) as [w1 r]. simpl. intros ->. now exists w1.
Qed.

(** *** Pairs whose checks answer *)

Lemma pair_checks_answer_principals debug w v fl s d :
  principals v = principals w ->
  pair_checks_answer debug w fl s d -> pair_checks_answer debug v fl s d.
Proof.
  intros Hp.
  unfold pair_checks_answer, reaches_gate, gate_verdict, pass_role_check,
    create_function_check, update_code_check, update_config_check.
  now rewrite Hp.
Qed.

Lemma pair_outcome_principals debug w v fl s d :
  principals v = principals w ->
  new_function_pair debug v s d = new_function_pair debug w s d
  /\ reaches_gate v s d = reaches_gate w s d
  /\ gate_verdict debug v s d = gate_verdict debug w s d
  /\ pair_lines debug v fl s d = pair_lines debug w fl s d.
Proof.
  intros Hp.
  unfold pair_lines, new_function_pair, reaches_gate, gate_verdict, pass_role_check,
    create_function_check, func_data_of, update_code_check, update_config_check,
    scan_lines, finding_line.
  now rewrite Hp.
Qed.

(** The body of a pair whose checks answer: what it appends and what it
    writes, on any world with the Node objects of [w]. *)
Lemma check_pair_local_run debug fl s d res w v :
  pair_checks_answer debug w fl s d ->
  principals v = principals w ->
  snd (check_pair debug fl s d res v) =
    Ok (res ++ if new_function_pair debug w s d
               then [mkEdge s d REASON_NEW_FUNCTION] else [])
  /\ advance v (fst (check_pair debug fl s d res v))
       (if reaches_gate w s d && is_service_match (gate_verdict debug w s d)
        then pair_lines debug w fl s d else []) [].
Proof.
  intros Hloc Hp.
  apply (pair_checks_answer_principals debug w v fl s d Hp) in Hloc.
  destruct (pair_outcome_principals debug w v fl s d Hp) as (Hq & Hr & Hg & Hl).
  rewrite <- Hq, <- Hr, <- Hg, <- Hl. clear Hq Hr Hg Hl.
  unfold pair_checks_answer in Hloc.
  destruct (reaches_gate v s d) eqn:Hrv.
  2: { rewrite (check_pair_skipped debug fl s d res v Hrv). simpl.
       unfold new_function_pair. rewrite Hrv. simpl. rewrite app_nil_r.
       split; [reflexivity | apply advance_refl]. }
  destruct (Hloc eq_refl) as [[v0 Hv0] Hrest].
  destruct v0.
  1, 2: rewrite (check_pair_reaches debug fl s d res v Hrv), Hv0; simpl;
    unfold new_function_pair; rewrite Hrv, Hv0; simpl; rewrite app_nil_r;
    split; [reflexivity | apply advance_refl].
  destruct (Hrest Hv0) as ([c Hc] & Hcf & Hfl).
  rewrite Hv0. simpl.
  destruct (check_pair_passing_run debug fl s d res v c) as (H1 & H2 & _).
  - now split.
  - exact Hc.
  - intros ->. now apply Hcf.
  - exact Hfl.
  - now split.
Qed.

(** A loop whose body, on the elements of the list, appends [g x] to the
    accumulator and [L x] to [output]. *)
Lemma for_each_advance_in {A E : Type} (g : A -> list E) (L : A -> list string)
    (body : A -> list E -> M (list E)) (w0 : World) :
  forall xs,
    (forall x acc v,
        In x xs -> principals v = principals w0 ->
        snd (body x acc v) = Ok (acc ++ g x)
        /\ advance v (fst (body x acc v)) (L x) []) ->
    forall acc v,
      principals v = principals w0 ->
      snd (for_each xs body acc v) = Ok (acc ++ flat_map g xs)
      /\ advance v (fst (for_each xs body acc v)) (flat_map L xs) [].
Proof.
  induction xs as [| x rest IH]; intros Hb acc v Hp.
  - simpl. rewrite app_nil_r. split; [reflexivity | apply advance_refl].
  - cbn [for_each flat_map]. unfold bind.
    destruct (Hb x acc v (or_introl eq_refl) Hp) as [H1 H2].
    destruct (body x acc v) as [v1 r1]. simpl in H1, H2. subst r1.
    assert (Hp1 : principals v1 = principals w0)
      by (destruct H2 as [-> _]; exact Hp).
    destruct (IH (fun y acc' v' Hy => Hb y acc' v' (or_intror Hy))
                (acc ++ g x) v1 Hp1) as [H3 H4].
    split.
    + rewrite H3. now rewrite app_assoc.
    + exact (advance_trans _ _ _ _ _ _ _ H2 H4).
Qed.

(** The node loops, when the checks they ask answer. *)
Lemma node_loops_answering debug fl nodes w v :
  pass_checks_answer debug w fl nodes ->
  principals v = principals w ->
  snd (for_each nodes
         (fun s result =>
            for_each nodes (fun d result => check_pair debug fl s d result) result)
         [] v)
  = Ok (new_function_edges debug w nodes)
  /\ sink (fst (for_each nodes
                  (fun s result =>
                     for_each nodes (fun d result => check_pair debug fl s d result)
                       result)
                  [] v))
     = sink v ++ pass_lines debug w fl nodes.
Proof.
  intros Hpass Hp.
  destruct (for_each_advance_in
              (fun s => flat_map
                 (fun d => if new_function_pair debug w s d
                           then [mkEdge s d REASON_NEW_FUNCTION] else []) nodes)
              (fun s => flat_map
                 (fun d => if reaches_gate w s d
                              && is_service_match (gate_verdict debug w s d)
                           then pair_lines debug w fl s d else []) nodes)
              (fun s result =>
                 for_each nodes (fun d result => check_pair debug fl s d result) result)
              w nodes) with (acc := @nil Edge) (v := v) as [H1 H2].
  - intros s acc v' Hs Hp'.
    apply (for_each_advance_in
             (fun d => if new_function_pair debug w s d
                       then [mkEdge s d REASON_NEW_FUNCTION] else [])
             (fun d => if reaches_gate w s d
                          && is_service_match (gate_verdict debug w s d)
                       then pair_lines debug w fl s d else [])
             _ w nodes); [| exact Hp'].
    intros d acc' v'' Hd Hp''. apply check_pair_local_run; [| exact Hp''].
    now apply Hpass.
  - exact Hp.
  - split; [exact H1 |]. destruct H2 as (_ & _ & Hs & _). exact Hs.
Qed.

(** C3 (amended): without a session the pass does not fail for want of
    live data and prints no progress line; it lists no function, still runs
    the gates and the local checks on every pair, and, when the policy
    checks it asks of the pairs of the node list answer, returns the
    new-function edges of the pairs that qualify (the empty list only when
    no pair does). *)
Theorem offline_pass_runs_local_checks nodes debug w :
  pass_checks_answer debug w [] nodes ->
  snd (gather_functions None w) = Ok []
  /\ stdout (fst (return_edges None nodes debug w)) = stdout w
  /\ snd (return_edges None nodes debug w) = Ok (new_function_edges debug w nodes)
  /\ (forall e,
        In e (new_function_edges debug w nodes) <->
        exists s d,
          In s nodes /\ In d nodes /\ passes_gate debug w s d
          /\ pass_role_check debug w s d = Ok true
          /\ create_function_check debug w s = Ok true
          /\ e = mkEdge s d REASON_NEW_FUNCTION).
Proof.
  intros Hp. split; [| split; [| split]].
  - now rewrite gather_functions_run.
  - rewrite return_edges_stdout. simpl. now rewrite app_nil_r.
  - unfold return_edges, bind. rewrite gather_functions_run.
    apply (node_loops_answering debug [] nodes w); [exact Hp | reflexivity].
  - intros e. rewrite in_new_function_edges.
    split; intros (s & d & Hs & Hd & H).
    + destruct H as [H ->]. apply new_function_pair_true in H as (Hg & Hpr & Hcf).
      exists s, d. auto 10.
    + destruct H as (Hg & Hpr & Hcf & ->). exists s, d.
      repeat split; auto. apply new_function_pair_true. auto.
Qed.

(** X9: once the clients are created and the functions listed, and when
    the policy checks the pass asks of the pairs of the node list answer,
    the pass returns and what it wrote on [output] is known line by line:
    for each pair that passes the gates, in loop order, the lines of that
    pair (new-function, edit-existing, edit-then-pass, each at most once),
    and nothing for the other pairs. *)
Theorem pass_output_complete session nodes debug w fl :
  snd (gather_functions session w) = Ok fl ->
  pass_checks_answer debug w fl nodes ->
  snd (return_edges session nodes debug w) = Ok (new_function_edges debug w nodes)
  /\ sink (fst (return_edges session nodes debug w)) =
     sink w ++ pass_lines debug w fl nodes.
Proof.
  intros Hg Hpass. apply gather_functions_answered in Hg as [w1 Hg].
  destruct (gather_functions_returned session w w1 fl Hg) as (_ & Hp1 & _ & Hs1 & _).
  unfold return_edges, bind. rewrite Hg.
  destruct (node_loops_answering debug fl nodes w w1 Hpass Hp1) as [H1 H2].
  split; [exact H1 |]. now rewrite H2, Hs1.
Qed.

(** *** Pairs that are skipped *)

Lemma return_edges_all_skipped session nodes debug w w1 fl :
  gather_functions session w = (w1, Ok fl) ->
  (forall s d, In s nodes -> In d nodes -> reaches_gate w s d = false) ->
  return_edges session nodes debug w = (w1, Ok []).
Proof.
  intros Hg H. unfold return_edges, bind at 1. rewrite Hg.
  destruct (gather_functions_returned session w w1 fl Hg) as (_ & Hp1 & _).
  apply for_each_idle. intros s acc Hs. apply for_each_idle. intros d acc' Hd.
  apply check_pair_skipped. unfold reaches_gate. rewrite Hp1. exact (H s d Hs Hd).
Qed.

(** X1: once the clients are created and the functions listed, if every
    pair of the node list is skipped before the trust policy is looked at
    (same node, admin source, or a destination whose arn has no [:role/]),
    the pass returns the empty list and writes nothing on [output],
    whatever the policy checks would do: none is asked. *)
Theorem skipped_pass_returns_nothing session nodes debug w fl :
  snd (gather_functions session w) = Ok fl ->
  (forall s d, In s nodes -> In d nodes -> reaches_gate w s d = false) ->
  snd (return_edges session nodes debug w) = Ok []
  /\ sink (fst (return_edges session nodes debug w)) = sink w.
Proof.
  intros Hg H. apply gather_functions_answered in Hg as [w1 Hg].
  rewrite (return_edges_all_skipped session nodes debug w w1 fl Hg H).
  destruct (gather_functions_returned session w w1 fl Hg) as (_ & _ & _ & Hs1 & _).
  split; [reflexivity | exact Hs1].
Qed.

(** X2: once the clients are created and the functions listed, a pass over
    no node, or over one node, returns the empty list and writes nothing on
    [output]: the only pair there is joins the node to itself, and no policy
    check is asked. *)
Theorem lone_node_pass_returns_nothing session debug w fl :
  snd (gather_functions session w) = Ok fl ->
  (snd (return_edges session [] debug w) = Ok []
   /\ sink (fst (return_edges session [] debug w)) = sink w)
  /\ (forall node,
        snd (return_edges session [node] debug w) = Ok []
        /\ sink (fst (return_edges session [node] debug w)) = sink w).
Proof.
  intros Hg. apply gather_functions_answered in Hg as [w1 Hg].
  destruct (gather_functions_returned session w w1 fl Hg) as (_ & _ & _ & Hs1 & _).
  split; [| intros node].
  - rewrite (return_edges_all_skipped session [] debug w w1 fl Hg);
      [split; [reflexivity | exact Hs1] | intros s d []].
  - rewrite (return_edges_all_skipped session [node] debug w w1 fl Hg);
      [split; [reflexivity | exact Hs1] |].
    intros s d [<- | []] [<- | []]. unfold reaches_gate. now rewrite Nat.eqb_refl.
Qed.

(** *** The function inventory *)

(** X11: when the listing of source lines 26 to 39 returns, the list it
    built holds a function exactly when a session is present and the
    function is on a page of one of the regions the session gives for
    Lambda; the listing has changed neither the Node objects, nor the
    inventory, nor [output]. *)
Theorem gather_functions_lists_every_page session w function_list :
  snd (gather_functions session w) = Ok function_list ->
  (forall func,
      In func function_list <->
      exists s region page,
        session = Some s
        /\ In region (get_available_regions s "lambda")
        /\ In page (inventory w region)
        /\ In func page)
  /\ principals (fst (gather_functions session w)) = principals w
  /\ inventory (fst (gather_functions session w)) = inventory w
  /\ sink (fst (gather_functions session w)) = sink w.
Proof.
  rewrite gather_functions_run. simpl. intros [= <-].
  repeat split; auto.
  - unfold function_list_of. destruct session as [s |]; [| contradiction].
    intros H. apply in_flat_map in H as (region & Hr & H).
    apply in_concat in H as (page & Hp & Hf). now exists s, region, page.
  - intros (s & region & page & -> & Hr & Hp & Hf). simpl.
    apply in_flat_map. exists region. split; [exact Hr |].
    apply in_concat. now exists page.
Qed.

(** *** Exceptions *)

(** X7: once the clients are created and the functions listed, with
    [output] a stream, a pass raises only when a policy check raises: if
    the pass ends with exception [e], there is a pair of the node list, not
    skipped, for which the trust policy check, the pass-role check, the
    create-function check or a code or configuration check on a listed
    function raises [e]. *)
Theorem pass_raises_only_on_check session nodes debug w fl e :
  snd (gather_functions session w) = Ok fl ->
  snd (return_edges session nodes debug w) = Raised e ->
  exists s d,
    In s nodes /\ In d nodes /\ reaches_gate w s d = true
    /\ policy_check_raised debug w fl s d e.
Proof.
  intros Hg H. apply gather_functions_answered in Hg as [w1 Hg].
  destruct (gather_functions_returned session w w1 fl Hg) as (-> & _).
  apply return_edges_raised_inv in H as (s & d & Hs & Hd & H).
  apply check_pair_raised_inv in H as [Hr Hp]. now exists s, d.
Qed.

(** *** The pass as a run of pairs *)

Lemma for_each_app {A S : Type} (body : A -> S -> M S) (l1 l2 : list A) :
  forall acc w,
    for_each (l1 ++ l2) body acc w =
    bind (for_each l1 body acc) (fun acc' => for_each l2 body acc') w.
Proof.
  induction l1 as [| a l1 IH]; intros acc w; [reflexivity |].
  cbn [app for_each]. unfold bind at 1 2 3.
  destruct (body a acc w) as [w1 [acc1 | e]]; [| reflexivity].
  rewrite IH. reflexivity.
Qed.

Lemma for_each_map {A B S : Type} (f : A -> B) (body : B -> S -> M S) (l : list A) :
  forall acc w,
    for_each (map f l) body acc w = for_each l (fun x => body (f x)) acc w.
Proof.
  induction l as [| a l IH]; intros acc w; [reflexivity |].
  cbn [map for_each]. unfold bind.
  destruct (body (f a) acc w) as [w1 [acc1 | e]]; [apply IH | reflexivity].
Qed.

(** The two loops of source lines 41 and 42 visit the pairs of
    [list_prod], in that order. *)
Lemma nested_loops_as_pairs debug fl (xs ys : list loc) :
  forall acc w,
    for_each xs
      (fun s result =>
         for_each ys (fun d result => check_pair debug fl s d result) result)
      acc w
    = run_pairs debug fl (list_prod xs ys) acc w.
Proof.
  unfold run_pairs. induction xs as [| x xs IH]; intros acc w; [reflexivity |].
  cbn [for_each list_prod]. rewrite for_each_app. unfold bind.
  rewrite for_each_map. cbn [fst snd].
  destruct (for_each ys (fun d result => check_pair debug fl x d result) acc w)
    as [w1 [acc1 | e]]; [apply IH | reflexivity].
Qed.

Lemma return_edges_as_run_pairs session nodes debug w w1 fl :
  gather_functions session w = (w1, Ok fl) ->
  return_edges session nodes debug w =
  run_pairs debug fl (pairs_in_loop_order nodes) [] w1.
Proof.
  intros Hg. unfold return_edges, bind at 1. rewrite Hg.
  apply nested_loops_as_pairs.
Qed.

(** How the body of a pair ends does not depend on the text already
    written nor on the edges already found. *)
Lemma check_pair_outcome_transfer debug fl s d res w0 v :
  same_store w0 v ->
  snd (check_pair debug fl s d res v) =
  match snd (check_pair debug fl s d [] w0) with
  | Ok new => Ok (res ++ new)
  | Raised e => Raised e
  end.
Proof.
  intros Hs. rewrite check_pair_acc. simpl.
  now rewrite (steady_outcome _ w0 v (steady_check_pair debug fl s d []) Hs).
Qed.

(** The pairs before the first one that raises run to their end; the run
    stops in the body of that one. *)
Lemma run_pairs_first_failure debug fl w0 s d after e :
  snd (check_pair debug fl s d [] w0) = Raised e ->
  forall before,
    (forall p e', In p before ->
       snd (check_pair debug fl (fst p) (snd p) [] w0) <> Raised e') ->
    forall res v,
      same_store w0 v ->
      exists w2 res2,
        run_pairs debug fl before res v = (w2, Ok res2)
        /\ same_store w0 w2
        /\ run_pairs debug fl (before ++ (s, d) :: after) res v =
           (fst (check_pair debug fl s d res2 w2), Raised e).
Proof.
  intros Hr. unfold run_pairs.
  induction before as [| p before IH]; intros Hb res v Hs.
  - exists v, res. split; [reflexivity | split; [exact Hs |]].
    cbn [app for_each fst snd]. unfold bind.
    pose proof (check_pair_outcome_transfer debug fl s d res w0 v Hs) as Ho.
    rewrite Hr in Ho.
    destruct (check_pair debug fl s d res v) as [v' r]. simpl in Ho. now subst r.
  - cbn [app for_each]. unfold bind.
    pose proof (check_pair_outcome_transfer debug fl (fst p) (snd p) res w0 v Hs) as Ho.
    destruct (check_pair debug fl (fst p) (snd p) res v) as [v1 r1] eqn:Hp.
    simpl in Ho.
    destruct (snd (check_pair debug fl (fst p) (snd p) [] w0)) as [new | e'] eqn:Hn.
    2: { exfalso. exact (Hb p e' (or_introl eq_refl) Hn). }
    subst r1.
    assert (Hs1 : same_store w0 v1).
    { change v1 with (fst (v1, Ok (res ++ new) : Result (list Edge))). rewrite <- Hp.
      apply steady_same_store; [apply steady_check_pair | exact Hs]. }
    apply (IH (fun q e'' Hq => Hb q e'' (or_intror Hq)) (res ++ new) v1 Hs1).
Qed.

(** Among the pairs of a list one of which raises, there is a first. *)
Lemma first_failing_pair debug fl w0 (pairs : list (loc * loc)) p e :
  In p pairs ->
  snd (check_pair debug fl (fst p) (snd p) [] w0) = Raised e ->
  exists before p0 after e0,
    pairs = before ++ p0 :: after
    /\ (forall q e', In q before ->
          snd (check_pair debug fl (fst q) (snd q) [] w0) <> Raised e')
    /\ snd (check_pair debug fl (fst p0) (snd p0) [] w0) = Raised e0.
Proof.
  intros Hin Hr. induction pairs as [| q pairs IH]; [contradiction |].
  destruct (snd (check_pair debug fl (fst q) (snd q) [] w0)) as [new | e0] eqn:Hq.
  - destruct Hin as [-> | Hin]; [rewrite Hq in Hr; discriminate |].
    destruct (IH Hin) as (before & p0 & after & e0 & -> & Hb & H0).
    exists (q :: before), p0, after, e0. split; [reflexivity | split; [| exact H0]].
    intros q' e' [<- | Hq']; [rewrite Hq; discriminate | now apply Hb].
  - exists [], q, pairs, e0. split; [reflexivity | split; [| exact Hq]].
    intros q' e' [].
Qed.

(** *** What the body of a pair has written when it raises *)

Lemma function_checks_loop_world debug s fl acc w :
  fst (for_each fl
         (fun func func_data =>
            src <- deref s ;;
            can_change_code <-
              call (local_check_authorization src "lambda:UpdateFunctionCode"
                      (FunctionArn func) [] debug) ;;
            can_change_config <-
              call (local_check_authorization src "lambda:UpdateFunctionConfiguration"
                      (FunctionArn func) [] debug) ;;
            ret (func_data ++ [(func, can_change_code, can_change_config)])) acc w)
  = w.
Proof.
  revert acc. induction fl as [| f0 rest IH]; intros acc; [reflexivity |].
  cbn [for_each]. unfold bind at 1. rewrite function_checks_step.
  destruct (update_code_check debug w s f0) as [b1 | e1]; [| reflexivity].
  destruct (update_config_check debug w s f0) as [b2 | e2]; [| reflexivity].
  apply IH.
Qed.

Lemma check_new_function_sink debug s d res v :
  sink (fst (check_new_function debug s d res v)) =
  sink v ++
    (if is_granted (pass_role_check debug v s d)
        && is_granted (create_function_check debug v s)
     then [finding_line v (mkEdge s d REASON_NEW_FUNCTION)] else []).
Proof.
  unfold check_new_function, pass_role_check, create_function_check, bind, deref,
    attr, call, ret, found_new_edge, output_write, bind, deref, finding_line.
  destruct (local_check_authorization _ "iam:PassRole" _ _ _) as [[|] | e1]; simpl;
    try (now rewrite app_nil_r).
  destruct (local_check_authorization _ "lambda:CreateFunction" _ _ _) as [[|] | e2];
    simpl; try (now rewrite app_nil_r). reflexivity.
Qed.

(** A body that raises has written its new-function line, when the
    new-function edge was found before the failure, and nothing else. *)
Lemma check_pair_raised_sink debug fl s d res v e :
  snd (check_pair debug fl s d res v) = Raised e ->
  sink (fst (check_pair debug fl s d res v)) =
  sink v ++
    (if new_function_pair debug v s d
     then [finding_line v (mkEdge s d REASON_NEW_FUNCTION)] else []).
Proof.
  intros H. destruct (check_pair debug fl s d res v) as [w' r] eqn:Hc.
  simpl in H. subst r. simpl. revert Hc.
  unfold new_function_pair. destruct (reaches_gate v s d) eqn:Hr.
  2: { rewrite (check_pair_skipped debug fl s d res v Hr). discriminate. }
  rewrite (check_pair_reaches debug fl s d res v Hr).
  destruct (gate_verdict debug v s d) as [[| |] | e1]; try discriminate.
  2: { intros [= <- _]. simpl. now rewrite app_nil_r. }
  simpl andb. unfold bind at 1.
  pose proof (check_new_function_sink debug s d res v) as Hsink.
  destruct (check_new_function debug s d res v) as [v1 [[c res1] | e1]];
    simpl in Hsink; [| intros [= <- _]; exact Hsink].
  unfold bind at 1.
  pose proof (function_checks_loop_world debug s fl [] v1) as Hw.
  fold (function_checks debug fl s) in Hw.
  destruct (function_checks debug fl s v1) as [v2 [fd | e2]]; simpl in Hw; subst v2;
    [| intros [= <- _]; exact Hsink].
  unfold bind.
  destruct (scan_edit_existing_run s d fd v1) as [H1 _].
  destruct (scan_edit_existing s d fd v1) as [v3 [[] | e3]]; [| discriminate].
  destruct (scan_edit_then_pass_run s d c fd v3) as [H2 _].
  destruct (scan_edit_then_pass s d c fd v3) as [v4 [[] | e4]]; discriminate.
Qed.

(** What a run of pairs writes are lines of edges it found. *)
Lemma run_pairs_sink debug fl pairs res v w2 res2 :
  run_pairs debug fl pairs res v = (w2, Ok res2) ->
  principals w2 = principals v
  /\ exists edges, sink w2 = sink v ++ map (finding_line v) edges.
Proof.
  intros H.
  destruct (findings_for_each
              (fun pair result => check_pair debug fl (fst pair) (snd pair) result)
              pairs
              (fun pair acc => findings_check_pair debug fl (fst pair) (snd pair) acc)
              res v) as [Hp Hs].
  fold (run_pairs debug fl pairs res) in Hp, Hs. rewrite H in Hp, Hs. now split.
Qed.

(** C4 (amended): an exception raised by a policy check while the body of
    a pair runs is not caught.  Once the clients are created and the
    functions listed, the pass runs the pairs in loop order up to the first
    one whose body raises and ends there, with the exception of that pair:
    no edge list is handed back, the pairs after it are not run, and
    [output] holds the lines of edges found by the earlier pairs, then the
    new-function line of the failing pair if that edge was found before the
    failure, and no line about the failure. *)
Theorem port_failure_aborts_pass session nodes debug w w1 fl s d e :
  gather_functions session w = (w1, Ok fl) ->
  In s nodes -> In d nodes ->
  snd (check_pair debug fl s d [] w) = Raised e ->
  exists before s0 d0 after e0 w2 res2,
    pairs_in_loop_order nodes = before ++ (s0, d0) :: after
    /\ (forall p e', In p before ->
          snd (check_pair debug fl (fst p) (snd p) [] w) <> Raised e')
    /\ snd (check_pair debug fl s0 d0 [] w) = Raised e0
    /\ run_pairs debug fl before [] w1 = (w2, Ok res2)
    /\ return_edges session nodes debug w =
       (fst (check_pair debug fl s0 d0 res2 w2), Raised e0)
    /\ sink (fst (check_pair debug fl s0 d0 res2 w2)) =
       sink w2 ++
         (if new_function_pair debug w s0 d0
          then [finding_line w (mkEdge s0 d0 REASON_NEW_FUNCTION)] else [])
    /\ (exists edges, sink w2 = sink w ++ map (finding_line w) edges).
Proof.
  intros Hg Hs Hd Hr.
  destruct (gather_functions_returned session w w1 fl Hg) as (_ & Hp1 & _ & Hs1 & Hst1).
  assert (Hin : In (s, d) (pairs_in_loop_order nodes)) by (apply in_prod; assumption).
  destruct (first_failing_pair debug fl w (pairs_in_loop_order nodes) (s, d) e Hin Hr)
    as (before & [s0 d0] & after & e0 & Hsplit & Hb & H0).
  cbn [fst snd] in H0.
  destruct (run_pairs_first_failure debug fl w s0 d0 after e0 H0 before Hb [] w1 Hst1)
    as (w2 & res2 & Hrun & Hst2 & Hall).
  exists before, s0, d0, after, e0, w2, res2.
  destruct (run_pairs_sink debug fl before [] w1 w2 res2 Hrun) as (Hp2 & edges & Hs2).
  assert (Hp2' : principals w2 = principals w) by (now rewrite Hp2).
  repeat split.
  - exact Hsplit.
  - exact Hb.
  - exact H0.
  - exact Hrun.
  - rewrite (return_edges_as_run_pairs session nodes debug w w1 fl Hg), Hsplit.
    exact Hall.
  - rewrite (check_pair_raised_sink debug fl s0 d0 res2 w2 e0).
    + destruct (pair_outcome_principals debug w w2 fl s0 d0 Hp2') as (-> & _).
      now rewrite (finding_line_principals w w2).
    + rewrite (check_pair_outcome_transfer debug fl s0 d0 res2 w w2 Hst2).
      now rewrite H0.
  - exists edges. rewrite Hs2, Hs1. f_equal. apply map_ext. intros x.
    now apply finding_line_principals.
Qed.

End PassOutcomes.

(** *** The further properties at work *)

Lemma returned_edges_endpoints_witness :
  source new_function_edge <> destination new_function_edge
  /\ is_admin (principals (world false alice_creates []) (source new_function_edge))
     = false.
Proof.
  destruct (returned_edges_endpoints (imports := oracle false) (Some session)
              [admin; alice; role_r] false (world false alice_creates [])
              [new_function_edge] new_function_edge)
    as (_ & _ & Hne & Hadm & _).
  - vm_compute. reflexivity.
  - now left.
  - split; [exact Hne | exact Hadm].
Defined.

Lemma returned_list_witness :
  [new_function_edge] =
  flat_map
    (fun s =>
       flat_map
         (fun d =>
            if new_function_pair (imports := oracle false) false
                 (world false alice_creates []) s d
            then [mkEdge s d REASON_NEW_FUNCTION] else [])
         [admin; alice; role_r])
    [admin; alice; role_r].
Proof.
  apply (returned_list_in_loop_order (imports := oracle false) (Some session)
           [admin; alice; role_r] false (world false alice_creates [])).
  vm_compute. reflexivity.
Defined.

Lemma returned_edges_distinct_witness : NoDup [new_function_edge].
Proof.
  apply (returned_edges_distinct (imports := oracle false) (Some session)
           [admin; alice; role_r] false (world false alice_creates [])).
  - repeat constructor; simpl; intuition discriminate.
  - vm_compute. reflexivity.
Defined.

Lemma pair_body_witness :
  snd (check_pair (imports := oracle true) false [function_g; function_f]
         alice role_r [] (world true alice_repurposes_g [function_g; function_f]))
  = Ok [new_function_edge].
Proof.
  destruct (pair_body_complete (imports := oracle true) false [function_g; function_f]
              alice role_r [] (world true alice_repurposes_g [function_g; function_f])
              true) as (H & _ & _).
  - split; vm_compute; reflexivity.
  - vm_compute. reflexivity.
  - intros _. exists true. vm_compute. reflexivity.
  - intros f [<- | [<- | []]]; split; eexists; vm_compute; reflexivity.
  - exact H.
Defined.

Lemma ignore_inventory_witness :
  snd (run false None [admin; alice; role_r] (world false alice_creates []))
  = Ok [new_function_edge]
  /\ snd (run false (Some session) [admin; alice; role_r]
            (world false alice_creates [function_f; function_g]))
     = Ok [new_function_edge]
  /\ [new_function_edge] = [new_function_edge].
Proof.
  assert (H1 : snd (run false None [admin; alice; role_r] (world false alice_creates []))
               = Ok [new_function_edge]) by (vm_compute; reflexivity).
  assert (H2 : snd (run false (Some session) [admin; alice; role_r]
                      (world false alice_creates [function_f; function_g]))
               = Ok [new_function_edge]) by (vm_compute; reflexivity).
  split; [exact H1 | split; [exact H2 |]].
  apply (returned_edges_ignore_inventory (imports := oracle false) None (Some session)
           [admin; alice; role_r] false (world false alice_creates [])
           (world false alice_creates [function_f; function_g]) _ _
           (fun node => eq_refl) H1 H2).
Defined.

Lemma returned_edges_logged_witness :
  In (finding_line (world false alice_creates []) new_function_edge)
     (sink (fst (run false (Some session) [admin; alice; role_r]
                   (world false alice_creates [])))).
Proof.
  apply (returned_edges_are_logged (imports := oracle false) (Some session)
           [admin; alice; role_r] false (world false alice_creates [])
           [new_function_edge]).
  - vm_compute. reflexivity.
  - now left.
Defined.

Lemma returned_edges_permute_witness :
  exists out',
    snd (run false (Some session) [role_r; admin; alice] (world false alice_creates []))
    = Ok out'
    /\ Permutation [new_function_edge] out'.
Proof.
  apply (returned_edges_permute (imports := oracle false) (Some session)
           [admin; alice; role_r] [role_r; admin; alice] false
           (world false alice_creates []) [new_function_edge]).
  - apply Permutation_sym. apply (Permutation_cons_append [admin; alice] role_r).
  - vm_compute. reflexivity.
Defined.

Lemma returned_edges_grow_witness : incl [new_function_edge] [new_function_edge].
Proof.
  apply (returned_edges_grow_with_nodes (imports := oracle false) (Some session)
           [alice; role_r] [admin; alice; role_r; role_t] false
           (world false alice_creates [])).
  - intros n Hn. simpl in Hn. simpl. intuition.
  - vm_compute. reflexivity.
  - vm_compute. reflexivity.
Defined.

Lemma returned_edges_count_witness : List.length [new_function_edge] <= 3 * (3 - 1).
Proof.
  apply (returned_edges_count (imports := oracle false) (Some session)
           [admin; alice; role_r] false (world false alice_creates [])).
  vm_compute. reflexivity.
Defined.

(** Case analysis on a concrete pass: the pairs that are skipped ask
    nothing, the others have their checks evaluated. *)
Ltac pass_checks_by_cases :=
  let s := fresh "s" in
  let d := fresh "d" in
  let Hs := fresh "Hs" in
  let Hd := fresh "Hd" in
  let Hr := fresh "Hr" in
  let f := fresh "f" in
  let Hf := fresh "Hf" in
  intros s d Hs Hd Hr; simpl in Hs, Hd;
  destruct Hs as [<- | [<- | [<- | []]]]; destruct Hd as [<- | [<- | [<- | []]]];
  try (vm_compute in Hr; discriminate Hr);
  (split;
   [ eexists; vm_compute; reflexivity
   | intros _; split;
     [ eexists; vm_compute; reflexivity
     | split;
       [ intros _; eexists; vm_compute; reflexivity
       | intros f Hf; simpl in Hf;
         repeat (destruct Hf as [<- | Hf];
                 [split; eexists; vm_compute; reflexivity |]);
         destruct Hf ] ] ]).

Lemma offline_pass_witness :
  snd (run true None [admin; alice; role_r] (world true alice_creates []))
  = Ok [new_function_edge].
Proof.
  assert (H : pass_checks_answer (imports := oracle true) false
                (world true alice_creates []) [] [admin; alice; role_r])
    by pass_checks_by_cases.
  exact (proj1 (proj2 (proj2
    (offline_pass_runs_local_checks (imports := oracle true)
       [admin; alice; role_r] false (world true alice_creates []) H)))).
Defined.

Lemma port_failure_witness :
  exists e0 w',
    run true (Some session) [alice; role_r; mallory] (world true alice_creates [])
    = (w', Raised e0).
Proof.
  destruct (port_failure_aborts_pass (imports := oracle true) (Some session)
              [alice; role_r; mallory] false (world true alice_creates [])
              (fst (gather_functions (imports := oracle true) (Some session)
                      (world true alice_creates [])))
              [] mallory role_r "malformed policy document")
    as (before & s0 & d0 & after & e0 & w2 & res2 & _ & _ & _ & _ & Hrun & _).
  - vm_compute. reflexivity.
  - simpl. auto.
  - simpl. auto.
  - vm_compute. reflexivity.
  - exists e0. eexists. exact Hrun.
Defined.

Lemma skipped_pass_witness :
  snd (run true (Some session) [mallory; alice; admin]
         (world true alice_creates [function_f])) = Ok [].
Proof.
  destruct (skipped_pass_returns_nothing (imports := oracle true) (Some session)
              [mallory; alice; admin] false (world true alice_creates [function_f])
              [function_f])
    as [H _]; [| | exact H].
  - vm_compute. reflexivity.
  - intros s d Hs Hd. simpl in Hs, Hd.
    destruct Hs as [<- | [<- | [<- | []]]]; destruct Hd as [<- | [<- | [<- | []]]];
      reflexivity.
Defined.

Lemma lone_node_pass_witness :
  snd (run true (Some session) [mallory] (world true alice_creates [function_f]))
  = Ok [].
Proof.
  destruct (lone_node_pass_returns_nothing (imports := oracle true) (Some session)
              false (world true alice_creates [function_f]) [function_f])
    as [_ H].
  - vm_compute. reflexivity.
  - apply H.
Defined.

Lemma pass_raises_witness :
  exists s d,
    In s [alice; role_r; mallory] /\ In d [alice; role_r; mallory]
    /\ reaches_gate (world true alice_creates []) s d = true
    /\ policy_check_raised (imports := oracle true) false (world true alice_creates [])
         [] s d "malformed policy document".
Proof.
  apply (pass_raises_only_on_check (imports := oracle true) (Some session)
           [alice; role_r; mallory] false (world true alice_creates [])).
  - vm_compute. reflexivity.
  - vm_compute. reflexivity.
Defined.

Lemma pass_output_witness :
  sink (fst (run true (Some session) [admin; alice; role_r]
               (world true alice_repurposes_g [function_g])))
  = [finding_line (world true alice_repurposes_g [function_g]) new_function_edge;
     finding_line (world true alice_repurposes_g [function_g]) repurpose_g_edge].
Proof.
  assert (Hg : snd (gather_functions (imports := oracle true) (Some session)
                      (world true alice_repurposes_g [function_g]))
               = Ok [function_g]) by (vm_compute; reflexivity).
  assert (H : pass_checks_answer (imports := oracle true) false
                (world true alice_repurposes_g [function_g]) [function_g]
                [admin; alice; role_r])
    by pass_checks_by_cases.
  destruct (pass_output_complete (imports := oracle true) (Some session)
              [admin; alice; role_r] false
              (world true alice_repurposes_g [function_g]) [function_g] Hg H)
    as [_ Hsink].
  exact Hsink.
Defined.

Lemma gather_functions_witness :
  In function_f [function_f] <->
  exists s region page,
    Some session = Some s
    /\ In region (get_available_regions s "lambda")
    /\ In page (inventory (world true alice_creates [function_f]) region)
    /\ In function_f page.
Proof.
  destruct (gather_functions_lists_every_page (imports := oracle true) (Some session)
              (world true alice_creates [function_f]) [function_f])
    as [H _].
  - vm_compute. reflexivity.
  - apply H.
Defined.
